(** * Into (Teknovisio/into): the PiiVariant container and the two
      operation processors, embedded from the C++ sources.

    - [PiiVariant]  : src/core/PiiVariant.h
    - [PiiYdin]     : src/ydin/PiiYdinTypes.h
    - [PiiSimpleProcessor]   : src/ydin/PiiSimpleProcessor.cc
    - [PiiThreadedProcessor] : src/ydin/PiiThreadedProcessor.cc

    Integers of the program are [Z] with their wrap-around written out;
    the converter registry (a QMap) is a [gmap]; the processors are
    state-passing functions over a record of the fields they touch. *)

From Stdlib Require Import ZArith Lia Bool List String.
From stdpp Require Import base option list gmap.
Import ListNotations.

Local Open Scope Z_scope.

(** ** Machine integers *)

Module CInt.

(** Conversion of an [unsigned int] to [int] (two's complement, 32 bits),
    as happens when a type tag is passed to a function taking [int]. *)
Definition to_int (u : Z) : Z :=
  let m := u mod 2 ^ 32 in
  if m <? 2 ^ 31 then m else m - 2 ^ 32.

(** Value of the low [w] bits read as an unsigned number. *)
Definition unsigned_of (w : Z) (bits : Z) : Z := bits mod 2 ^ w.

(** Value of the low [w] bits read as a two's complement number. *)
Definition signed_of (w : Z) (bits : Z) : Z :=
  let m := bits mod 2 ^ w in
  if m <? 2 ^ (w - 1) then m else m - 2 ^ w.

(** [x & ~0x1f] on [int]: [~0x1f] is the int -32. *)
Definition mask_subnet (x : Z) : Z := Z.land x (Z.lnot 0x1f).

End CInt.

(** ** PiiVariant (src/core/PiiVariant.h) *)

Module PiiVariant.

(** [enum PrimitiveType] *)
Definition CharType : Z := 0x00.
Definition ShortType : Z := 0x01.
Definition IntType : Z := 0x02.
Definition Int64Type : Z := 0x03.
Definition UnsignedCharType : Z := 0x08.
Definition UnsignedShortType : Z := 0x09.
Definition UnsignedIntType : Z := 0x0a.
Definition UnsignedInt64Type : Z := 0x0b.
Definition FloatType : Z := 0x10.
Definition DoubleType : Z := 0x11.
Definition BoolType : Z := 0x18.
Definition VoidPtrType : Z := 0x19.
Definition LastPrimitiveType : Z := VoidPtrType.
Definition InvalidType : Z := 0xffffffff.

(** A type tag is an [unsigned int]. *)
Definition is_tag (t : Z) : Prop := 0 <= t < 2 ^ 32.

(** [static bool isPrimitive(unsigned int type)] *)
Definition isPrimitive (type : Z) : bool := type <=? LastPrimitiveType.
(** [static bool isInteger(unsigned int type)] *)
Definition isInteger (type : Z) : bool := Z.land type 0x10 =? 0.
(** [static bool isFloat(unsigned int type)] *)
Definition isFloat (type : Z) : bool := Z.land type 0x18 =? 0x10.
(** [static bool isUnsigned(unsigned int type)] *)
Definition isUnsigned (type : Z) : bool := Z.land type 0x18 =? 0x8.
(** [static bool isValid(unsigned int type)] *)
Definition isValid (type : Z) : bool := negb (type =? InvalidType).

(** The twelve C++ types instantiated by [PII_PRIMITIVE_VARIANT_DECL]. *)
Inductive CType : Set :=
| c_char | c_short | c_int | c_qint64
| c_uchar | c_ushort | c_uint | c_quint64
| c_float | c_double | c_bool | c_voidptr.

(** Members of [union Value]. *)
Inductive Member : Set :=
| cValue | sValue | iValue | lValue
| ucValue | usValue | uiValue | ulValue
| fValue | dValue | bValue | pValue.

(** How a member's bytes are read. [float] and [double] are carried as
    their IEEE bit patterns and [void*] as an address: storing and
    loading moves the bits unchanged. *)
Inductive Repr : Set := SignedInt | UnsignedBits | Boolean.

(** Width in bits of each member (LP64 / LLP64 with 64-bit pointers). *)
Definition member_width (m : Member) : Z :=
  match m with
  | cValue | ucValue | bValue => 8
  | sValue | usValue => 16
  | iValue | uiValue | fValue => 32
  | lValue | ulValue | dValue | pValue => 64
  end.

Definition member_repr (m : Member) : Repr :=
  match m with
  | cValue | sValue | iValue | lValue => SignedInt
  | bValue => Boolean
  | _ => UnsignedBits
  end.

(** The values a member can hold. *)
Definition in_range (m : Member) (v : Z) : Prop :=
  match member_repr m with
  | SignedInt => - 2 ^ (member_width m - 1) <= v < 2 ^ (member_width m - 1)
  | UnsignedBits => 0 <= v < 2 ^ member_width m
  | Boolean => v = 0 \/ v = 1
  end.

(** The union is 8 bytes, every member starts at offset 0. The storage
    is the 64-bit content; a member occupies its low [member_width]
    bits. Writing a member leaves the remaining bytes as they were. *)
Definition write_member (m : Member) (v : Z) (old : Z) : Z :=
  let w := member_width m in
  (old mod 2 ^ 64) / 2 ^ w * 2 ^ w + v mod 2 ^ w.

Definition read_member (m : Member) (bits : Z) : Z :=
  match member_repr m with
  | SignedInt => CInt.signed_of (member_width m) bits
  | UnsignedBits | Boolean => CInt.unsigned_of (member_width m) bits
  end.

(** The fields of a PiiVariant: the function table pointer (None is the
    null pointer), the type tag, and the anonymous union. *)
Record t : Set := mk {
  _pVTable : option positive;
  _uiType : Z;
  _value : Z
}.

#[global] Instance t_eq_dec : EqDecision t.
Proof. solve_decision. Defined.

(** [unsigned int type() const] *)
Definition type (v : t) : Z := _uiType v.

(** The rows of [PII_PRIMITIVE_VARIANT_DECL(TYPE, PREFIX, NAME)]:
    PREFIX selects the union member ... *)
Definition PREFIX (T : CType) : Member :=
  match T with
  | c_char => cValue | c_short => sValue | c_int => iValue | c_qint64 => lValue
  | c_uchar => ucValue | c_ushort => usValue | c_uint => uiValue
  | c_quint64 => ulValue
  | c_float => fValue | c_double => dValue
  | c_bool => bValue | c_voidptr => pValue
  end.

(** ... and NAME the enumerator [NAME ## Type]. *)
Definition NAME (T : CType) : Z :=
  match T with
  | c_char => CharType | c_short => ShortType | c_int => IntType
  | c_qint64 => Int64Type
  | c_uchar => UnsignedCharType | c_ushort => UnsignedShortType
  | c_uint => UnsignedIntType | c_quint64 => UnsignedInt64Type
  | c_float => FloatType | c_double => DoubleType
  | c_bool => BoolType | c_voidptr => VoidPtrType
  end.

(** [Pii::typeId<TYPE>()], specialised by PII_DECLARE_VARIANT_TYPE. *)
Definition typeId (T : CType) : Z := NAME T.

(** [inline PiiVariant::PiiVariant(TYPE val)]; [uninit] is the content
    of the union's memory before the member is assigned. *)
Definition PiiVariant (T : CType) (val : Z) (uninit : Z) : t :=
  {| _pVTable := None;
     _uiType := NAME T;
     _value := write_member (PREFIX T) val uninit |}.

(** [PiiVariant::valueAs<TYPE>() const] *)
Definition valueAs (T : CType) (v : t) : Z :=
  read_member (PREFIX T) (_value v).

(** [static inline qint64 toKey(quint64 fromType, quint64 toType)] *)
Definition toKey (fromType toType : Z) : Z :=
  CInt.signed_of 64 (Z.lor fromType (Z.shiftl toType 32 mod 2 ^ 64)).

(** *** convertTo, for an arbitrary target type [T] *)
Section ConvertTo.

Variable T : Type.
(** [T()] *)
Variable T_default : T.
(** [Pii::typeId<T>()] *)
Variable typeId_T : Z.
(** [*ptrAs<T>()]: the stored bytes (or the heap object they point
    to) reinterpreted as a [T]. *)
Variable ptrAs : t -> T.

(** [typedef bool ( *ConverterFunction)(const PiiVariant*, void* )],
    for functions that store a [T]: given the variant and the present
    content of the output location, the function returns its result
    and the content it leaves in the location. *)
Definition ConverterFunction : Type := t -> T -> bool * T.

(** [typedef QMap<quint64,ConverterFunction> ConverterMap], restricted
    to the entries whose target type is [T]. *)
Variable converterMap : gmap Z ConverterFunction.

(** Modelled from the spec: the body of [PiiVariant::converter] is in
    PiiVariant.cc, which is not part of the sources at hand. The
    header documents it as "returns the conversion function used to
    convert fromType to toType. If no such converter is registered,
    returns zero"; the registry is keyed by [toKey]. *)
Definition converter (fromType toType : Z) : option ConverterFunction :=
  converterMap !! toKey fromType toType.

(** [template <class T> bool PiiVariant::convertTo(T& value) const]:
    the returned pair is the result and the final content of [value]. *)
Definition convertTo_ref (v : t) (value : T) : bool * T :=
  if _uiType v =? typeId_T then
    (true, ptrAs v)
  else
    match converter (_uiType v) typeId_T with
    | Some convert => convert v value
    | None => (false, value)
    end.

(** [template <class T> T PiiVariant::convertTo(bool* ok) const]:
    the returned pair is the value and what is stored in [*ok] when
    [ok] is not null. *)
Definition convertTo (v : t) : T * bool :=
  let value := T_default in
  let '(bOk, value) := convertTo_ref v value in
  (value, bOk).

End ConvertTo.

End PiiVariant.

(** ** Type categories of Ydin (src/ydin/PiiYdinTypes.h) *)

Module PiiYdin.

(** [enum ControlTypeId] *)
Definition SynchronizationTagType : Z := 0x20.
Definition StopTagType : Z := 0x21.
Definition PauseTagType : Z := 0x22.
Definition ResumeTagType : Z := 0x23.
Definition ReconfigurationTagType : Z := 0x24.

(** [inline bool isControlType(int type)] *)
Definition isControlType (type : Z) : bool :=
  CInt.mask_subnet type =? 0x20.

(** [inline bool isNonControlType(int type)] *)
Definition isNonControlType (type : Z) : bool :=
  negb (CInt.mask_subnet type =? 0x20).

(** [inline bool isMatrixType(int type)] *)
Definition isMatrixType (type : Z) : bool :=
  CInt.mask_subnet type =? 0x40.

(** The predicates applied to an [unsigned int] tag, with the implicit
    conversion to [int] at the call. *)
Definition isControlType_tag (t : Z) : bool := isControlType (CInt.to_int t).
Definition isMatrixType_tag (t : Z) : bool := isMatrixType (CInt.to_int t).

End PiiYdin.

(** ** Vocabulary shared by the two processors *)

(** [PiiOperation::State] *)
Module PiiOperation.
Inductive State : Set :=
| Stopped | Starting | Running | Pausing | Paused | Stopping | Interrupted.

#[global] Instance State_eq_dec : EqDecision State.
Proof. solve_decision. Defined.
End PiiOperation.

(** [PiiFlowController::FlowState] *)
Module PiiFlowController.
Inductive FlowState : Set :=
| IncompleteState | ProcessableState | SynchronizedState
| ReconfigurableState | PausedState | FinishedState | ResumedState.
End PiiFlowController.

(** [PiiExecutionException::Code] *)
Module PiiExecutionException.
Inductive Code : Set := Error | Finished | Paused.

#[global] Instance Code_eq_dec : EqDecision Code.
Proof. solve_decision. Defined.
End PiiExecutionException.

(** The collaborators of a processor. Their classes (PiiInputSocket,
    PiiFlowController, PiiDefaultOperation, PiiWaitCondition) are not part
    of the sources at hand; a processor only uses the interface below. *)
Module Ydin.
Import PiiOperation PiiFlowController.

(** Objects passed through sockets are variants. *)
Definition Obj : Set := PiiVariant.t.

(** Modelled from the spec: an input socket is a bounded queue read
    through [canReceive()], [receive()] and [firstObject()]; the flow
    controller moves queued objects to the slot [process()] reads. *)
Record PiiInputSocket : Set := {
  firstObject : option Obj;
  queue : list Obj;
  capacity : nat
}.

Definition canReceive (s : PiiInputSocket) : bool :=
  (length (queue s) <? capacity s)%nat.

Definition receive (object : Obj) (s : PiiInputSocket) : PiiInputSocket :=
  {| firstObject := firstObject s;
     queue := queue s ++ [object];
     capacity := capacity s |}.

(** What [prepareProcess()] does: return a verdict or throw. *)
Inductive Prepared : Set :=
| Verdict (state : FlowState)
| Throws (code : PiiExecutionException.Code).

(** The functions of the parent operation that a processor invokes. *)
Inductive Hook : Set :=
| sendSyncEvents | processLocked | applyPropertySet
| operationPaused | operationStopped | operationResumed.

#[global] Instance Hook_eq_dec : EqDecision Hook.
Proof. solve_decision. Defined.

(** Calls that code running inside a hook (the operation's own
    [process()], or operations downstream of it on the same call stack)
    can make back on the processor. *)
Inductive Call : Set :=
| CallTryToReceive (sender : nat) (object : Obj)
| CallCheck (reset : bool)
| CallReconfigure (propertySetName : string)
| CallStart
| CallInterrupt
| CallPause
| CallStop.

(** What one invocation of a hook does, as far as the processor can
    tell: a sequence of calls back on the processor, then a normal
    return or a PiiExecutionException. *)
Record Script : Set := {
  calls : list Call;
  throws : option PiiExecutionException.Code
}.

(** Observable events, recorded in order. *)
Inductive Event : Set :=
| EPrepare                                   (* prepareProcess() queried *)
| EEnter (h : Hook) (objs : list (option Obj)) (* hook entered; firstObject of each input *)
| ELeave (h : Hook)                          (* hook left, by return or throw *)
| ESetState (s : State)                      (* PiiOperation::setState *)
| EErrorOccured.                             (* emit errorOccured *)

(** The flow controller and the operation body. *)
Record Env : Type := {
  FC : Type;
  prepareProcess :
    FC -> list PiiInputSocket -> Prepared * FC * list PiiInputSocket;
  body : Hook -> State -> list PiiInputSocket -> Script
}.

(** Outcome of running a model function: it returns, or the recursion
    budget is used up, or the C++ behaviour is undefined (a null flow
    controller is dereferenced, a sender is not a socket of the
    operation). *)
Inductive Result (A : Type) : Type :=
| Returned (a : A)
| OutOfFuel
| Undefined.
Arguments Returned {A} a.
Arguments OutOfFuel {A}.
Arguments Undefined {A}.

#[global] Instance Result_ret : MRet Result := fun A a => Returned a.

#[global] Instance Result_bind : MBind Result := fun A B k r =>
  match r with
  | Returned a => k a
  | OutOfFuel => OutOfFuel
  | Undefined => Undefined
  end.

End Ydin.

(** ** PiiSimpleProcessor (src/ydin/PiiSimpleProcessor.cc)

    The processor runs on the thread of whoever calls it. The state mutex
    is released around every hook, so code running inside a hook can call
    the processor again on the same stack; these nested calls are what
    [perform] stands for. *)

Module PiiSimpleProcessor.
Import PiiFlowController Ydin PiiOperation.
Abbreviation Code := PiiExecutionException.Code.

(** The member function that called [setState]. *)
Inductive Method : Set := MTryToReceive | MStart | MInterrupt | MStop.

(** An entry of the processor's log: an event of the collaborators, or
    a state change together with the member function that made it. *)
Inductive Entry : Set :=
| Ev (e : Event)
| SetBy (m : Method) (s : State).

Section Processor.
Context {E : Env}.

(** The operation's state field and the members of the processor. *)
Record t : Type := mk {
  state : State;                       (* _pParentOp->_d()->state *)
  _bReset : bool;
  _bProcessing : bool;
  _pFlowController : option (FC E);    (* None is the null pointer *)
  inputs : list PiiInputSocket;        (* the operation's input sockets *)
  trace : list Entry
}.

Definition log (e : Entry) (op : t) : t :=
  mk (state op) (_bReset op) (_bProcessing op) (_pFlowController op)
     (inputs op) (trace op ++ [e]).

Definition with_bReset (b : bool) (op : t) : t :=
  mk (state op) b (_bProcessing op) (_pFlowController op)
     (inputs op) (trace op).

Definition with_bProcessing (b : bool) (op : t) : t :=
  mk (state op) (_bReset op) b (_pFlowController op)
     (inputs op) (trace op).

Definition with_inputs (ins : list PiiInputSocket) (op : t) : t :=
  mk (state op) (_bReset op) (_bProcessing op) (_pFlowController op)
     ins (trace op).

Definition with_flowController (fc : FC E) (op : t) : t :=
  mk (state op) (_bReset op) (_bProcessing op) (Some fc)
     (inputs op) (trace op).

(** [_pParentOp->setState(s)], called from member function [m]. *)
Definition setState (m : Method) (s : State) (op : t) : t :=
  log (SetBy m s)
      (mk s (_bReset op) (_bProcessing op) (_pFlowController op)
          (inputs op) (trace op)).

(** [PiiSimpleProcessor::PiiSimpleProcessor]: both flags start false. *)
Definition PiiSimpleProcessor (st : State) (fc : option (FC E))
    (ins : list PiiInputSocket) : t :=
  mk st false false fc ins [].

(** [void PiiSimpleProcessor::check(bool reset)] *)
Definition check (reset : bool) (op : t) : t :=
  let op := with_bProcessing false op in
  if reset then with_bReset true op else op.

(** [void PiiSimpleProcessor::interrupt()] *)
Definition interrupt (op : t) : t :=
  setState MInterrupt Stopped (with_bReset false op).

(** [bool PiiSimpleProcessor::wait(unsigned long)] *)
Definition wait (time : Z) (op : t) : bool := true.

Section Methods.
(** How a call made from inside a hook is carried out. *)
Variable perform : Call -> t -> Result t.

Fixpoint run_calls (cs : list Call) (op : t) : Result t :=
  match cs with
  | [] => mret op
  | c :: cs => op ← perform c op; run_calls cs op
  end.

(** One invocation of a hook of the parent operation, with the
    state mutex released. The result carries the exception thrown,
    if any. *)
Definition invoke (h : Hook) (op : t) : Result (option Code * t) :=
  let script := body E h (state op) (inputs op) in
  let op := log (Ev (EEnter h (map firstObject (inputs op)))) op in
  op ← run_calls (calls script) op;
  mret (throws script, log (Ev (ELeave h)) op).

(** Hooks run one after the other until one throws. *)
Fixpoint invoke_all (hs : list Hook) (op : t) : Result (option Code * t) :=
  match hs with
  | [] => mret (None, op)
  | h :: hs =>
    '(ex, op) ← invoke h op;
    match ex with
    | Some code => mret (Some code, op)
    | None => invoke_all hs op
    end
  end.

(** The [switch (state)] of tryToReceive, lines 83-100, with its
    fall-through: the hooks called for a verdict, in order. *)
Definition dispatch (state : FlowState) : list Hook :=
  match state with
  | ProcessableState => [processLocked]
  | SynchronizedState | IncompleteState => []
  | ReconfigurableState => [applyPropertySet]
  | PausedState => [operationPaused; operationStopped; operationResumed]
  | FinishedState => [operationStopped; operationResumed]
  | ResumedState => [operationResumed]
  end.

(** The [do ... while (_bReset)] loop, lines 53-107. The result
    carries the PiiExecutionException that left the loop, if any.
    [n] bounds the number of iterations. *)
Fixpoint dispatch_loop (n : nat) (op : t) : Result (option Code * t) :=
  match n with
  | O => OutOfFuel
  | S n =>
    match _pFlowController op with
    | None => Undefined
    | Some fc =>
      let '(prepared, fc, ins) := prepareProcess E fc (inputs op) in
      let op := log (Ev EPrepare) (with_inputs ins (with_flowController fc op)) in
      match prepared with
      | Throws code => mret (Some code, op)
      | Verdict IncompleteState => mret (None, op)
      | Verdict state =>
        let op := with_bProcessing true op in
        '(ex, op) ← invoke_all (sendSyncEvents :: dispatch state) op;
        match ex with
        | Some code => mret (Some code, op)
        | None =>
          let op := with_bProcessing false op in
          if _bReset op then dispatch_loop n op else mret (None, op)
        end
      end
    end
  end.

(** The [catch (PiiExecutionException& ex)] clause, lines 109-135. *)
Definition catch_execution (code : Code) (op : t) : t :=
  let op := with_bProcessing false op in
  if bool_decide (code = PiiExecutionException.Paused) && negb (bool_decide (state op = Stopped)) then
    setState MTryToReceive Paused op
  else
    let op := if bool_decide (code = PiiExecutionException.Error) then log (Ev EErrorOccured) op
              else op in
    setState MTryToReceive Stopped (with_bReset false op).

(** Lines 35-38: an armed processor turns Stopped or Paused into
    Running. *)
Definition wake_up (op : t) : t :=
  if bool_decide (state op = Stopped) || bool_decide (state op = Paused)
  then setState MTryToReceive Running op
  else op.

(** What becomes of the object offered to tryToReceive, lines 35-43
    and 137-138. *)
Inductive Admission : Type :=
| Discarded               (* not armed: return true at line 36 *)
| Rejected (op : t)       (* canReceive() false: return false *)
| Accepted (op : t).      (* pInput->receive(object) done *)

Definition admission (sender : nat) (object : Obj) (op : t)
    : Result Admission :=
  if negb (_bReset op) then mret Discarded
  else
    let op := wake_up op in
    match inputs op !! sender with
    | None => Undefined
    | Some pInput =>
      if canReceive pInput then
        mret (Accepted
                (with_inputs (<[sender := receive object pInput]> (inputs op)) op))
      else mret (Rejected op)
    end.

(** [bool PiiSimpleProcessor::tryToReceive(sender, object)] *)
Definition tryToReceive (n : nat) (sender : nat) (object : Obj) (op : t)
    : Result (bool * t) :=
  a ← admission sender object op;
  match a with
  | Discarded => mret (true, op)
  | Rejected op => mret (false, op)
  | Accepted op =>
    (* Avoid recursive/concurrent calls to process(). *)
    if _bProcessing op then mret (true, op)
    else
      '(ex, op) ← dispatch_loop n op;
      match ex with
      | None => mret (true, op)
      | Some code => mret (true, catch_execution code op)
      end
  end.

(** A hook called inside [try { ... } catch (...) {}]. *)
Definition invoke_quietly (h : Hook) (op : t) : Result t :=
  '(_, op) ← invoke h op; mret op.

(** [void PiiSimpleProcessor::start()] *)
Definition start (op : t) : Result t :=
  if bool_decide (state op = Pausing) then mret op
  else if bool_decide (state op = Paused) then
    match _pFlowController op with
    | None => invoke_quietly operationResumed (setState MStart Running op)
    | Some _ => mret op
    end
  else mret (setState MStart Running op).

(** [void PiiSimpleProcessor::stop(PiiOperation::State finalState)] *)
Definition stop_to (finalState : State) (op : t) : Result t :=
  if bool_decide (state op = Running) then
    match _pFlowController op with
    | Some _ =>
      mret (setState MStop
              (if bool_decide (finalState = Stopped) then Stopping else Pausing)
              op)
    | None =>
      let op := setState MStop finalState op in
      if bool_decide (finalState = Paused)
      then invoke_quietly operationPaused op
      else invoke_quietly operationStopped op
    end
  else mret op.

(** [void PiiSimpleProcessor::pause()] *)
Definition pause (op : t) : Result t := stop_to Paused op.

(** [void PiiSimpleProcessor::stop()] *)
Definition stop (op : t) : Result t := stop_to Stopped op.

(** [void PiiSimpleProcessor::reconfigure(const QString&)] *)
Definition reconfigure (propertySetName : string) (op : t) : Result t :=
  match _pFlowController op with
  | Some _ => mret op
  | None =>
    '(ex, op) ← invoke applyPropertySet op;
    match ex with
    | Some _ => mret (log (Ev EErrorOccured) op)
    | None => mret op
    end
  end.

(** A call on the processor; [n] is the iteration bound given to
    tryToReceive. *)
Definition perform_call (n : nat) (c : Call) (op : t) : Result t :=
  match c with
  | CallTryToReceive sender object =>
    '(_, op) ← tryToReceive n sender object op; mret op
  | CallCheck reset => mret (check reset op)
  | CallReconfigure propertySetName => reconfigure propertySetName op
  | CallStart => start op
  | CallInterrupt => mret (interrupt op)
  | CallPause => pause op
  | CallStop => stop op
  end.

End Methods.

(** Calls nested to depth at most [fuel]. *)
Fixpoint perform (fuel : nat) (c : Call) (op : t) : Result t :=
  match fuel with
  | O => OutOfFuel
  | S fuel => perform_call (perform fuel) fuel c op
  end.

(** The member functions as called from outside, with [fuel] bounding
    both the nesting of calls and the iterations of the loop. *)
Definition run_tryToReceive (fuel : nat) (sender : nat) (object : Obj) (op : t)
    : Result (bool * t) :=
  tryToReceive (perform fuel) fuel sender object op.

Definition run_start (fuel : nat) (op : t) : Result t :=
  start (perform fuel) op.

Definition run_pause (fuel : nat) (op : t) : Result t :=
  pause (perform fuel) op.

Definition run_stop (fuel : nat) (op : t) : Result t :=
  stop (perform fuel) op.

End Processor.

Arguments t : clear implicits.
Arguments Admission : clear implicits.

End PiiSimpleProcessor.

(** ** PiiThreadedProcessor (src/ydin/PiiThreadedProcessor.cc)

    The processor owns a thread that executes [run()]. The thread is
    modelled by its position in [run()] and a step function that takes it
    from one position to the next; the member functions called by other
    threads are atomic steps that can happen between two steps of the
    thread. *)

Module PiiThreadedProcessor.
Import PiiFlowController Ydin PiiOperation.
Abbreviation Code := PiiExecutionException.Code.

(** Where the processor's thread is. *)
Inductive Position : Set :=
| NotStarted          (* no thread yet *)
| AtRunEntry          (* QThread::start() done, run() about to begin *)
| AtLoopTest          (* line 199, the while condition *)
| AtInputWait         (* line 207, _inputCondition.wait() *)
| AfterInputWait      (* line 210 *)
| AtPausedWait        (* line 247, _inputCondition.wait() *)
| AfterPausedWait     (* line 251 *)
| RunReturned         (* run() has returned, finished() not yet emitted *)
| Terminated.         (* finished() emitted and handled *)

#[global] Instance Position_eq_dec : EqDecision Position.
Proof. solve_decision. Defined.

Section Processor.
Context {E : Env}.

Record t : Type := mk {
  state : State;                       (* _pParentOp->state() *)
  _bMustReconfigure : bool;
  _strPropertySetName : string;
  _inputCondition : bool;              (* a signal is pending *)
  _pFlowController : option (FC E);
  inputs : list PiiInputSocket;
  position : Position;
  trace : list Event
}.

Definition log (e : Event) (tp : t) : t :=
  mk (state tp) (_bMustReconfigure tp) (_strPropertySetName tp) (_inputCondition tp)
     (_pFlowController tp) (inputs tp) (position tp) (trace tp ++ [e]).

Definition setState (s : State) (tp : t) : t :=
  log (ESetState s)
      (mk s (_bMustReconfigure tp) (_strPropertySetName tp) (_inputCondition tp)
          (_pFlowController tp) (inputs tp) (position tp) (trace tp)).

Definition with_bMustReconfigure (b : bool) (tp : t) : t :=
  mk (state tp) b (_strPropertySetName tp) (_inputCondition tp)
     (_pFlowController tp) (inputs tp) (position tp) (trace tp).

Definition with_strPropertySetName (name : string) (tp : t) : t :=
  mk (state tp) (_bMustReconfigure tp) name (_inputCondition tp)
     (_pFlowController tp) (inputs tp) (position tp) (trace tp).

Definition with_inputCondition (b : bool) (tp : t) : t :=
  mk (state tp) (_bMustReconfigure tp) (_strPropertySetName tp) b
     (_pFlowController tp) (inputs tp) (position tp) (trace tp).

Definition with_inputs (ins : list PiiInputSocket) (tp : t) : t :=
  mk (state tp) (_bMustReconfigure tp) (_strPropertySetName tp) (_inputCondition tp)
     (_pFlowController tp) ins (position tp) (trace tp).

Definition with_flowController (fc : FC E) (tp : t) : t :=
  mk (state tp) (_bMustReconfigure tp) (_strPropertySetName tp) (_inputCondition tp)
     (Some fc) (inputs tp) (position tp) (trace tp).

Definition goto (p : Position) (tp : t) : t :=
  mk (state tp) (_bMustReconfigure tp) (_strPropertySetName tp) (_inputCondition tp)
     (_pFlowController tp) (inputs tp) p (trace tp).

(** Modelled from the spec: PiiWaitCondition in NoQueue mode has one
    waiter and remembers at most one signal. [wakeOne] leaves a
    signal for the waiter; [wait] blocks until there is a signal and
    consumes it; [wakeAll] releases a thread that is waiting and
    otherwise clears the pending signal. *)
Definition is_waiting (tp : t) : bool :=
  bool_decide (position tp = AtInputWait)
  || bool_decide (position tp = AtPausedWait).

Definition wakeOne (tp : t) : t := with_inputCondition true tp.

Definition wakeAll (tp : t) : t := with_inputCondition (is_waiting tp) tp.

(** [void PiiThreadedProcessor::setStopped()] *)
Definition setStopped (tp : t) : t := setState Stopped tp.

(** [void PiiThreadedProcessor::check(bool reset)] *)
Definition check (reset : bool) (tp : t) : t :=
  let tp := if reset then wakeAll tp else tp in
  with_strPropertySetName EmptyString (with_bMustReconfigure false tp).

(** [void PiiThreadedProcessor::start()]; [QThread::start] does
    nothing when the thread is already running. *)
Definition start (tp : t) : t :=
  if bool_decide (state tp = Stopped) then
    let tp := setState Starting tp in
    if bool_decide (position tp = NotStarted)
       || bool_decide (position tp = Terminated)
    then goto AtRunEntry tp else tp
  else if bool_decide (state tp = Paused) then wakeOne tp
  else tp.

(** [void PiiThreadedProcessor::interrupt()] *)
Definition interrupt (tp : t) : t :=
  let tp := if bool_decide (state tp = Stopped) then tp
            else setState Interrupted tp in
  wakeOne tp.

(** [void PiiThreadedProcessor::pause()] *)
Definition pause (tp : t) : t :=
  if bool_decide (state tp = Running) then setState Pausing tp else tp.

(** [void PiiThreadedProcessor::stop()] *)
Definition stop (tp : t) : t :=
  if bool_decide (state tp = Running) then setState Stopping tp else tp.

(** [void PiiThreadedProcessor::reconfigure(const QString&)] *)
Definition reconfigure (propertySetName : string) (tp : t) : t :=
  with_bMustReconfigure true (with_strPropertySetName propertySetName tp).

(** [bool PiiThreadedProcessor::tryToReceive(sender, object)] *)
Definition tryToReceive (sender : nat) (object : Obj) (tp : t)
    : Result (bool * t) :=
  match inputs tp !! sender with
  | None => Undefined
  | Some pInput =>
    if canReceive pInput then
      mret (true,
            wakeOne (with_inputs (<[sender := receive object pInput]> (inputs tp)) tp))
    else mret (false, tp)
  end.

(** A call made from inside a hook. No member function of this
    processor invokes a hook, so such calls do not nest. *)
Definition perform (c : Call) (tp : t) : Result t :=
  match c with
  | CallTryToReceive sender object =>
    '(_, tp) ← tryToReceive sender object tp; mret tp
  | CallCheck reset => mret (check reset tp)
  | CallReconfigure propertySetName => mret (reconfigure propertySetName tp)
  | CallStart => mret (start tp)
  | CallInterrupt => mret (interrupt tp)
  | CallPause => mret (pause tp)
  | CallStop => mret (stop tp)
  end.

Fixpoint run_calls (cs : list Call) (tp : t) : Result t :=
  match cs with
  | [] => mret tp
  | c :: cs => tp ← perform c tp; run_calls cs tp
  end.

Definition invoke (h : Hook) (tp : t) : Result (option Code * t) :=
  let script := body E h (state tp) (inputs tp) in
  let tp := log (EEnter h (map firstObject (inputs tp))) tp in
  tp ← run_calls (calls script) tp;
  mret (throws script, log (ELeave h) tp).

Fixpoint invoke_all (hs : list Hook) (tp : t) : Result (option Code * t) :=
  match hs with
  | [] => mret (None, tp)
  | h :: hs =>
    '(ex, tp) ← invoke h tp;
    match ex with
    | Some code => mret (Some code, tp)
    | None => invoke_all hs tp
    end
  end.

(** The [switch (state)] of prepareAndProcess, lines 162-179. *)
Definition dispatch (state : FlowState) : list Hook :=
  match state with
  | ProcessableState => [processLocked]
  | SynchronizedState | IncompleteState => []
  | ReconfigurableState => [applyPropertySet]
  | PausedState => [operationPaused; operationStopped; operationResumed]
  | FinishedState => [operationStopped; operationResumed]
  | ResumedState => [operationResumed]
  end.

(** [void PiiThreadedProcessor::prepareAndProcess()]; the result
    carries the exception that left the function, if any, and [n]
    bounds the iterations of [while (true)]. *)
Fixpoint prepareAndProcess (n : nat) (tp : t) : Result (option Code * t) :=
  match n with
  | O => OutOfFuel
  | S n =>
    let tp := wakeAll tp in
    match _pFlowController tp with
    | None => Undefined
    | Some fc =>
      let '(prepared, fc, ins) := prepareProcess E fc (inputs tp) in
      let tp := log EPrepare (with_inputs ins (with_flowController fc tp)) in
      match prepared with
      | Throws code => mret (Some code, tp)
      | Verdict IncompleteState => mret (None, tp)
      | Verdict state =>
        '(ex, tp) ← invoke_all (sendSyncEvents :: dispatch state) tp;
        match ex with
        | Some code => mret (Some code, tp)
        | None => prepareAndProcess n tp
        end
      end
    end
  end.

(** The branch of [run()] for an operation without connected inputs,
    lines 219-233. *)
Definition produce (tp : t) : Result (option Code * t) :=
  '(ex, tp) ← invoke processLocked tp;
  match ex with
  | Some code => mret (Some code, tp)
  | None =>
    '(ex, tp) ← (if _bMustReconfigure tp then
                   '(ex, tp) ← invoke applyPropertySet tp;
                   match ex with
                   | Some code => mret (Some code, tp)
                   | None => mret (None, with_bMustReconfigure false tp)
                   end
                 else mret (None, tp));
    match ex with
    | Some code => mret (Some code, tp)
    | None =>
      if bool_decide (state tp = Pausing) then invoke operationPaused tp
      else if bool_decide (state tp = Stopping) then invoke operationStopped tp
      else mret (None, tp)
    end
  end.

(** The [catch (PiiExecutionException& ex)] clause of [run()], up to
    the wait at line 247 or the return at line 280. *)
Definition catch_execution (code : Code) (tp : t) : t :=
  if bool_decide (code = PiiExecutionException.Paused)
     && negb (bool_decide (state tp = Interrupted))
  then goto AtPausedWait (setState Paused tp)
  else
    let tp := setState Stopping tp in
    let tp := if bool_decide (code = PiiExecutionException.Error)
              then log EErrorOccured tp else tp in
    goto RunReturned tp.

(** After a try block of the loop body. *)
Definition after_try (r : option Code * t) : t :=
  match r with
  | (None, tp) => goto AtLoopTest tp
  | (Some code, tp) => catch_execution code tp
  end.

(** What one step of the thread does. *)
Inductive Step : Type :=
| Blocked           (* waiting on the condition, no signal pending *)
| Halted            (* there is no running thread *)
| Next (tp : t).

(** One step of the thread executing [run()]. *)
Definition thread_step (n : nat) (tp : t) : Result Step :=
  match position tp with
  | NotStarted | Terminated => mret Halted
  | AtRunEntry =>
    (* lines 190-196 *)
    let tp := if bool_decide (state tp = Starting)
              then setState Running tp else tp in
    mret (Next (goto AtLoopTest tp))
  | AtLoopTest =>
    (* line 199, then line 205 or the else branch at line 217 *)
    if bool_decide (state tp = Interrupted) then
      mret (Next (goto RunReturned tp))
    else
      match _pFlowController tp with
      | Some _ => mret (Next (goto AtInputWait tp))
      | None => r ← produce tp; mret (Next (after_try r))
      end
  | AtInputWait =>
    if _inputCondition tp
    then mret (Next (goto AfterInputWait (with_inputCondition false tp)))
    else mret Blocked
  | AfterInputWait =>
    (* lines 210-213 *)
    if bool_decide (state tp = Interrupted) then
      mret (Next (goto RunReturned tp))
    else
      r ← prepareAndProcess n tp; mret (Next (after_try r))
  | AtPausedWait =>
    if _inputCondition tp
    then mret (Next (goto AfterPausedWait (with_inputCondition false tp)))
    else mret Blocked
  | AfterPausedWait =>
    (* lines 251-267 *)
    if bool_decide (state tp = Paused) then
      tp ← match _pFlowController tp with
           | None => '(_, tp) ← invoke operationResumed tp; mret tp
           | Some _ => mret (wakeOne tp)
           end;
      mret (Next (goto AtLoopTest (setState Running tp)))
    else mret (Next (goto AtLoopTest tp))
  | RunReturned =>
    (* finished() is emitted; its direct connection calls setStopped() *)
    mret (Next (goto Terminated (setStopped tp)))
  end.

(** The thread runs alone for at most [k] steps, until it blocks or
    terminates. *)
Fixpoint thread_run (k : nat) (n : nat) (tp : t) : Result t :=
  match k with
  | O => OutOfFuel
  | S k =>
    s ← thread_step n tp;
    match s with
    | Blocked | Halted => mret tp
    | Next tp => thread_run k n tp
    end
  end.

End Processor.

Arguments t : clear implicits.

End PiiThreadedProcessor.

(** ** Concrete variants and registries used in examples *)

Module ConversionExamples.
Import PiiVariant.

(** A registry with one converter from double to int, which stores 7
    and then reports failure. *)
Definition failing_converter : ConverterFunction Z := fun _ _ => (false, 7).

Definition failing_registry : gmap Z (ConverterFunction Z) :=
  {[ toKey DoubleType IntType := failing_converter ]}.

Definition a_double : t := PiiVariant c_double 0x3ff0000000000000 0.
Definition an_int : t := PiiVariant c_int 42 0.

End ConversionExamples.

(** ** Vocabulary for statements about runs *)

Module Runs.
Import PiiFlowController Ydin PiiOperation PiiSimpleProcessor.

(** [post r Q]: if the run [r] returns, its result satisfies [Q]. *)
Definition post {A : Type} (r : Result A) (Q : A -> Prop) : Prop :=
  match r with
  | Returned a => Q a
  | OutOfFuel | Undefined => True
  end.

(** [op'] continues the log of [op] by entries that satisfy [Q]. *)
Definition extends {E : Env} (Q : list Entry -> Prop) (op op' : t E) : Prop :=
  exists tr, trace op' = trace op ++ tr /\ Q tr.

(** The states each member function of the synchronous processor may
    set. *)
Definition allowed (e : Entry) : bool :=
  match e with
  | Ev _ => true
  | SetBy MTryToReceive s =>
    bool_decide (s = Running) || bool_decide (s = Paused) || bool_decide (s = Stopped)
  | SetBy MStart s => bool_decide (s = Running)
  | SetBy MInterrupt s => bool_decide (s = Stopped)
  | SetBy MStop s =>
    bool_decide (s = Stopping) || bool_decide (s = Pausing)
    || bool_decide (s = Stopped) || bool_decide (s = Paused)
  end.

Definition all_allowed (tr : list Entry) : Prop :=
  Forall (fun e => allowed e = true) tr.

(** Entries that are state changes only. *)
Definition quiet (e : Entry) : bool :=
  match e with
  | SetBy _ _ => true
  | Ev _ => false
  end.

Definition all_quiet (tr : list Entry) : Prop :=
  Forall (fun e => quiet e = true) tr.

(** A dispatch is under way on a processor with a flow controller. *)
Definition busy {E : Env} (op : t E) : Prop :=
  _bProcessing op = true /\ is_Some (_pFlowController op).

(** Reading a log from left to right, [inside] tells whether a hook is
    running. The log is rejected (None) if a hook is entered or the
    flow controller is queried while a hook is running, or if a hook is
    left while none is running; otherwise the final value of [inside]
    is returned. *)
Fixpoint scan (inside : bool) (tr : list Entry) : option bool :=
  match tr with
  | [] => Some inside
  | Ev (EEnter _ _) :: tr => if inside then None else scan true tr
  | Ev (ELeave _) :: tr => if inside then scan false tr else None
  | Ev EPrepare :: tr => if inside then None else scan false tr
  | _ :: tr => scan inside tr
  end.

(** Hook invocations follow one another: none overlaps another, and
    the flow controller is only queried between them. *)
Definition serial (tr : list Entry) : Prop := scan false tr = Some false.

(** The invocations of [process()] in a log, each with the first
    objects of the inputs at the time. *)
Fixpoint processed (tr : list Entry) : list (list (option Obj)) :=
  match tr with
  | [] => []
  | Ev (EEnter processLocked objs) :: tr => objs :: processed tr
  | _ :: tr => processed tr
  end.

Definition is_check (c : Call) : bool :=
  match c with
  | CallCheck _ => true
  | _ => false
  end.

(** No hook of the operation calls [check()]. *)
Definition never_checks (E : Env) : Prop :=
  forall h st ins, forallb (fun c => negb (is_check c)) (calls (body E h st ins)) = true.

End Runs.

(** ** A one-input operation, used in the scenarios *)

Module Scenario.
Import PiiFlowController Ydin PiiOperation.

(** Two payload objects. *)
Definition A : Obj := PiiVariant.PiiVariant PiiVariant.c_int 1 0.
Definition B : Obj := PiiVariant.PiiVariant PiiVariant.c_int 2 0.

(** Modelled from the spec: the verdict of a flow controller with a
    single input, where every tag reaches quorum at once. A payload
    object is processable; a synchronization, stop, pause, resume or
    reconfiguration tag gives the verdict of its kind; another control
    object is a synchronization error. *)
Definition verdict_of (o : Obj) : Prepared :=
  let type := PiiVariant.type o in
  if PiiYdin.isNonControlType (CInt.to_int type) then Verdict ProcessableState
  else if type =? PiiYdin.SynchronizationTagType then Verdict SynchronizedState
  else if type =? PiiYdin.StopTagType then Verdict FinishedState
  else if type =? PiiYdin.PauseTagType then Verdict PausedState
  else if type =? PiiYdin.ResumeTagType then Verdict ResumedState
  else if type =? PiiYdin.ReconfigurationTagType then Verdict ReconfigurableState
  else Throws PiiExecutionException.Error.

(** Modelled from the spec: [prepareProcess()] of that controller. With
    an empty queue the input is incomplete; otherwise the oldest queued
    object becomes the socket's first object and decides the verdict. *)
Definition oneInput_prepareProcess (fc : unit) (ins : list PiiInputSocket)
    : Prepared * unit * list PiiInputSocket :=
  match ins with
  | [s] =>
    match queue s with
    | [] => (Verdict IncompleteState, fc, ins)
    | o :: rest =>
      (verdict_of o, fc,
       [{| firstObject := Some o; queue := rest; capacity := capacity s |}])
    end
  | _ => (Verdict IncompleteState, fc, ins)
  end.

Definition returns_at_once : Script := {| calls := []; throws := None |}.

(** An operation whose hooks do nothing the processor can see. *)
Definition plain : Env :=
  {| FC := unit;
     prepareProcess := oneInput_prepareProcess;
     body := fun _ _ _ => returns_at_once |}.

(** An operation whose [process()], while it handles [A], has [B]
    delivered to its own input on the same call stack. *)
Definition feeds_itself : Env :=
  {| FC := unit;
     prepareProcess := oneInput_prepareProcess;
     body := fun h _ ins =>
       match h, ins with
       | processLocked, [s] =>
         if bool_decide (firstObject s = Some A)
         then {| calls := [CallTryToReceive 0 B]; throws := None |}
         else returns_at_once
       | _, _ => returns_at_once
       end |}.

(** An operation whose [process()] calls [check(false)] and then has
    [B] delivered while it handles [A]. *)
Definition rechecks_itself : Env :=
  {| FC := unit;
     prepareProcess := oneInput_prepareProcess;
     body := fun h _ ins =>
       match h, ins with
       | processLocked, [s] =>
         if bool_decide (firstObject s = Some A)
         then {| calls := [CallCheck false; CallTryToReceive 0 B]; throws := None |}
         else returns_at_once
       | _, _ => returns_at_once
       end |}.

Definition empty_socket (capacity : nat) : PiiInputSocket :=
  {| firstObject := None; queue := []; capacity := capacity |}.

Definition full_socket : PiiInputSocket :=
  {| firstObject := None; queue := [A]; capacity := 1 |}.

(** A freshly constructed synchronous processor for an operation with
    one connected input, in state Stopped. *)
Definition fresh (E : Env) (fc : FC E) (capacity : nat) : PiiSimpleProcessor.t E :=
  PiiSimpleProcessor.PiiSimpleProcessor Stopped (Some fc) [empty_socket capacity].

(** The same after [check(true)] and [start()]. *)
Definition armed_started (E : Env) (fc : FC E) (capacity : nat)
    : Result (PiiSimpleProcessor.t E) :=
  PiiSimpleProcessor.run_start 1 (PiiSimpleProcessor.check true (fresh E fc capacity)).

(** An armed synchronous processor that was paused while its input
    queue was full. *)
Definition paused_full : PiiSimpleProcessor.t plain :=
  PiiSimpleProcessor.mk (E := plain) Paused true false (Some tt) [full_socket] [].

(** An armed synchronous processor in the middle of a dispatch. *)
Definition dispatching : PiiSimpleProcessor.t plain :=
  PiiSimpleProcessor.mk (E := plain) Running true true (Some tt) [empty_socket 2] [].

(** An armed synchronous processor in the middle of a dispatch, with
    a full input queue. *)
Definition dispatching_full : PiiSimpleProcessor.t plain :=
  PiiSimpleProcessor.mk (E := plain) Running true true (Some tt) [full_socket] [].

(** The state reached by [check(true)], [start()], [stop()]. *)
Definition stop_requested : Result (PiiSimpleProcessor.t plain) :=
  op ← armed_started plain tt 4; PiiSimpleProcessor.run_stop 1 op.

(** The state a processor accepts an object in, if it accepts it. *)
Definition accepting_state {E : Env} (a : PiiSimpleProcessor.Admission E)
    : option State :=
  match a with
  | PiiSimpleProcessor.Accepted op => Some (PiiSimpleProcessor.state op)
  | _ => None
  end.

(** A threaded processor whose thread waits for input at line 207,
    with nothing queued and no signal pending. *)
Definition waiting_thread (E : Env) (fc : FC E) : PiiThreadedProcessor.t E :=
  PiiThreadedProcessor.mk (E := E) Running false EmptyString false (Some fc) [empty_socket 1]
    PiiThreadedProcessor.AtInputWait [].

(** The armed and started processor of [plain], as [armed_started]
    leaves it. *)
Definition running : PiiSimpleProcessor.t plain :=
  PiiSimpleProcessor.mk (E := plain) Running true false (Some tt) [empty_socket 4]
    [PiiSimpleProcessor.SetBy PiiSimpleProcessor.MStart Running].

(** [A] then [B] are delivered one after the other to an armed and
    started processor. The result gives what the two calls returned,
    the invocations of [process()] and the reading of the log. *)
Definition two_deliveries (E : Env) (fc : FC E) (fuel : nat)
    : Result (bool * bool * list (list (option Obj)) * option bool) :=
  op ← armed_started E fc 4;
  '(b1, op) ← PiiSimpleProcessor.run_tryToReceive fuel 0 A op;
  '(b2, op) ← PiiSimpleProcessor.run_tryToReceive fuel 0 B op;
  mret (b1, b2, Runs.processed (PiiSimpleProcessor.trace op),
        Runs.scan false (PiiSimpleProcessor.trace op)).

(** [A] alone is delivered to an armed and started processor. *)
Definition one_delivery (E : Env) (fc : FC E) (fuel : nat)
    : Result (bool * list (list (option Obj)) * option bool) :=
  op ← armed_started E fc 4;
  '(b, op) ← PiiSimpleProcessor.run_tryToReceive fuel 0 A op;
  mret (b, Runs.processed (PiiSimpleProcessor.trace op),
        Runs.scan false (PiiSimpleProcessor.trace op)).

(** A threaded processor that has not been started. *)
Definition idle_threaded : PiiThreadedProcessor.t plain :=
  PiiThreadedProcessor.mk (E := plain) Stopped false EmptyString false (Some tt) [empty_socket 1]
    PiiThreadedProcessor.NotStarted [].

End Scenario.

(** ** More of PiiVariant (src/core/PiiVariant.h) *)

Module PiiVariantMore.
Import PiiVariant.

(** [template <class T> PiiVariant(T value, unsigned int typeId,
    OnlyPrimitive<T>)]: a primitive value under a caller-chosen type
    ID. [*ptrAs<T>() = value] writes the first [sizeof(T)] bytes of
    the buffer, which is where the union member of [T] lives. *)
Definition PiiVariant_with_id (T : CType) (value : Z) (typeId : Z) (uninit : Z) : t :=
  {| _pVTable := None;
     _uiType := typeId;
     _value := write_member (PREFIX T) value uninit |}.

(** What [serialize] writes after the type ID when the archive is an
    output archive (lines 164-200). *)
Inductive Payload : Set :=
| PrimitiveMember (m : Member)   (* archive & _value.PREFIXValue *)
| ThroughVTable                  (* _pVTable->save(archive, var) *)
| Nothing.

(** The [switch (_uiType)] of lines 173-195, in the order of its
    [case] labels. *)
Definition serialized_case (uiType : Z) : option Member :=
  if uiType =? IntType then Some iValue
  else if uiType =? DoubleType then Some dValue
  else if uiType =? BoolType then Some bValue
  else if uiType =? FloatType then Some fValue
  else if uiType =? InvalidType then Some iValue
  else if uiType =? UnsignedIntType then Some uiValue
  else if uiType =? CharType then Some cValue
  else if uiType =? ShortType then Some sValue
  else if uiType =? Int64Type then Some lValue
  else if uiType =? UnsignedCharType then Some ucValue
  else if uiType =? UnsignedShortType then Some usValue
  else if uiType =? UnsignedInt64Type then Some ulValue
  else None.

(** [PiiVariant::serialize] on an output archive, after the ID. *)
Definition saved_payload (v : t) : Payload :=
  if _uiType v <=? LastPrimitiveType then
    match serialized_case (_uiType v) with
    | Some m => PrimitiveMember m
    | None => Nothing
    end
  else if negb (_uiType v =? InvalidType) && bool_decide (_pVTable v <> None)
  then ThroughVTable
  else Nothing.

(** The integral types: conversions from and to [float], [double] and
    [void*] are not modelled. *)
Definition integral (T : CType) : bool :=
  match T with
  | c_float | c_double | c_voidptr => false
  | _ => true
  end.

(** The C++ conversion of an integral value [v] to the integral type
    [To]: to [bool] it is [v != 0], to an unsigned type it is [v]
    modulo 2^w, to a signed type the two's complement reading of the
    same bits. *)
Definition convert_integral (To : CType) (v : Z) : Z :=
  match member_repr (PREFIX To) with
  | Boolean => if v =? 0 then 0 else 1
  | SignedInt => CInt.signed_of (member_width (PREFIX To)) v
  | UnsignedBits => CInt.unsigned_of (member_width (PREFIX To)) v
  end.

(** [template <class From, class To> static bool
    defaultConverter(const PiiVariant* from, void* to)], for integral
    [From] and [To]. *)
Definition defaultConverter (From To : CType) : option (ConverterFunction Z) :=
  if integral From && integral To then
    Some (fun from _ => (true, convert_integral To (valueAs From from)))
  else None.

(** A registry in which the default converter is registered for one
    pair of types, as [setConverter(typeId<From>(), typeId<To>(),
    defaultConverter<From,To>)] leaves an empty registry. *)
Definition registry_of (From To : CType) : gmap Z (ConverterFunction Z) :=
  match defaultConverter From To with
  | Some convert => {[ toKey (typeId From) (typeId To) := convert ]}
  | None => ∅
  end.

End PiiVariantMore.

(** ** More of the Ydin types (src/ydin/PiiYdinTypes.h) *)

Module PiiYdinMore.
Import PiiVariant PiiVariantMore PiiYdin.

(** [enum MatrixTypeId] *)
Definition CharMatrixType : Z := 0x40.
Definition ShortMatrixType : Z := CharMatrixType + 1.
Definition IntMatrixType : Z := ShortMatrixType + 1.
Definition Int64MatrixType : Z := IntMatrixType + 1.
Definition UnsignedCharMatrixType : Z := 0x40 + UnsignedCharType.
Definition UnsignedShortMatrixType : Z := UnsignedCharMatrixType + 1.
Definition UnsignedIntMatrixType : Z := UnsignedShortMatrixType + 1.
Definition UnsignedInt64MatrixType : Z := UnsignedIntMatrixType + 1.
Definition FloatMatrixType : Z := 0x40 + FloatType.
Definition DoubleMatrixType : Z := FloatMatrixType + 1.
Definition BoolMatrixType : Z := 0x40 + BoolType.
Definition UnsignedCharColorMatrixType : Z := BoolMatrixType + 1.
Definition UnsignedCharColor4MatrixType : Z := UnsignedCharColorMatrixType + 1.
Definition UnsignedShortColorMatrixType : Z := UnsignedCharColor4MatrixType + 1.
Definition FloatColorMatrixType : Z := UnsignedShortColorMatrixType + 1.
Definition IntComplexMatrixType : Z := FloatColorMatrixType + 1.
Definition FloatComplexMatrixType : Z := IntComplexMatrixType + 1.
Definition DoubleComplexMatrixType : Z := FloatComplexMatrixType + 1.

(** [enum ColorTypeId] *)
Definition UnsignedCharColorType : Z := 0x80.
Definition UnsignedCharColor4Type : Z := UnsignedCharColorType + 1.
Definition UnsignedShortColorType : Z := UnsignedCharColor4Type + 1.
Definition FloatColorType : Z := UnsignedShortColorType + 1.

(** [enum ComplexTypeId] *)
Definition IntComplexType : Z := 0xa0 + IntType.
Definition FloatComplexType : Z := 0xa0 + FloatType.
Definition DoubleComplexType : Z := 0xa0 + DoubleType.

(** [enum QtTypeId] *)
Definition QStringType : Z := 0xc0.
Definition QDateType : Z := QStringType + 1.
Definition QTimeType : Z := QDateType + 1.
Definition QDateTimeType : Z := QTimeType + 1.
Definition QImageType : Z := QDateTimeType + 1.
Definition QStringListType : Z := QImageType + 1.

(** The enumerators of [ControlTypeId] and of [MatrixTypeId]. *)
Definition ControlTypeIds : list Z :=
  [SynchronizationTagType; StopTagType; PauseTagType; ResumeTagType;
   ReconfigurationTagType].

Definition MatrixTypeIds : list Z :=
  [CharMatrixType; ShortMatrixType; IntMatrixType; Int64MatrixType;
   UnsignedCharMatrixType; UnsignedShortMatrixType; UnsignedIntMatrixType;
   UnsignedInt64MatrixType; FloatMatrixType; DoubleMatrixType; BoolMatrixType;
   UnsignedCharColorMatrixType; UnsignedCharColor4MatrixType;
   UnsignedShortColorMatrixType; FloatColorMatrixType;
   IntComplexMatrixType; FloatComplexMatrixType; DoubleComplexMatrixType].

(** [PII_PRIMITIVE_CASES(func, obj)]: the [case] label taken for a type
    ID, given as the type [func] is instantiated with. The labels are
    those of PII_DO_INTEGER_CASES, PII_DO_UNSIGNED_INTEGER_CASES,
    PII_DO_FLOAT_CASES and [case PiiVariant::BoolType], in this order. *)
Definition PII_PRIMITIVE_CASES (type : Z) : option CType :=
  if type =? CharType then Some c_char
  else if type =? ShortType then Some c_short
  else if type =? IntType then Some c_int
  else if type =? Int64Type then Some c_qint64
  else if type =? UnsignedCharType then Some c_uchar
  else if type =? UnsignedShortType then Some c_ushort
  else if type =? UnsignedIntType then Some c_uint
  else if type =? UnsignedInt64Type then Some c_quint64
  else if type =? FloatType then Some c_float
  else if type =? DoubleType then Some c_double
  else if type =? BoolType then Some c_bool
  else None.

(** [PII_PRIMITIVE_MATRIX_CASES(func, obj)]: the element type [func] is
    instantiated with. *)
Definition PII_PRIMITIVE_MATRIX_CASES (type : Z) : option CType :=
  if type =? CharMatrixType then Some c_char
  else if type =? ShortMatrixType then Some c_short
  else if type =? IntMatrixType then Some c_int
  else if type =? Int64MatrixType then Some c_qint64
  else if type =? UnsignedCharMatrixType then Some c_uchar
  else if type =? UnsignedShortMatrixType then Some c_ushort
  else if type =? UnsignedIntMatrixType then Some c_uint
  else if type =? UnsignedInt64MatrixType then Some c_quint64
  else if type =? FloatMatrixType then Some c_float
  else if type =? DoubleMatrixType then Some c_double
  else if type =? BoolMatrixType then Some c_bool
  else None.

(** [template <class T> inline T primitiveAs(const PiiVariant& obj)] *)
Definition primitiveAs (T : CType) (obj : t) : Z := valueAs T obj.

(** What a conversion function of this header does. *)
Inductive Converted : Set :=
| Value (z : Z)       (* returns this value *)
| UnknownType         (* PII_THROW_UNKNOWN_TYPE(input) *)
| NotModelled.        (* a floating point or string conversion *)

(** The cast [(T) primitiveAs<Src>(obj)]. *)
Definition cast_primitive (T Src : CType) (obj : t) : Converted :=
  if integral Src && integral T
  then Value (convert_integral T (primitiveAs Src obj))
  else NotModelled.

(** [template <class T> inline T convertPrimitiveTo(const PiiVariant&
    obj)]: an object of another type gives [T()]. *)
Definition convertPrimitiveTo (T : CType) (obj : t) : Converted :=
  match PII_PRIMITIVE_CASES (type obj) with
  | Some Src => cast_primitive T Src obj
  | None =>
    if type obj =? QStringType then NotModelled
    else if integral T then Value 0 else NotModelled
  end.

(** [template <class T> T convertPrimitiveTo(PiiInputSocket* input)],
    applied to the first object of the input. *)
Definition convertPrimitiveTo_input (T : CType) (obj : t) : Converted :=
  match PII_PRIMITIVE_CASES (type obj) with
  | Some Src => cast_primitive T Src obj
  | None => UnknownType
  end.

(** [template <class T> T primitiveAs(PiiInputSocket* input)], applied
    to the first object of the input. *)
Definition primitiveAs_input (T : CType) (obj : t) : Converted :=
  if type obj =? typeId T then Value (valueAs T obj)
  else
    match PII_PRIMITIVE_CASES (type obj) with
    | Some Src => cast_primitive T Src obj
    | None =>
      if type obj =? QStringType then NotModelled else UnknownType
    end.

(** [createStartTag()], [createEndTag()], [createStopTag()],
    [createPauseTag()]: an [int] under a control type ID. *)
Definition createStartTag (uninit : Z) : t :=
  PiiVariant_with_id c_int 1 SynchronizationTagType uninit.
Definition createEndTag (uninit : Z) : t :=
  PiiVariant_with_id c_int (-1) SynchronizationTagType uninit.
Definition createStopTag (uninit : Z) : t :=
  PiiVariant_with_id c_int 0 StopTagType uninit.
Definition createPauseTag (uninit : Z) : t :=
  PiiVariant_with_id c_int 0 PauseTagType uninit.

End PiiYdinMore.

(** ** More vocabulary for statements about runs *)

Module RunsMore.
Import Ydin PiiOperation.

(** The log entries that are invocations of [process()]. *)
Definition no_process (tr : list PiiSimpleProcessor.Entry) : Prop :=
  Runs.processed tr = [].

(** The processor [op'] is disarmed and its log continues that of
    [op] without an invocation of [process()]. *)
Definition still_disarmed {E : Env} (op op' : PiiSimpleProcessor.t E) : Prop :=
  PiiSimpleProcessor._bReset op' = false /\ Runs.extends no_process op op'.

(** The events of the threaded processor's log that are state changes. *)
Definition is_state_change (e : Event) : bool :=
  match e with
  | ESetState _ => true
  | _ => false
  end.

(** The hooks entered in a log of the threaded processor. *)
Fixpoint entered (tr : list Event) : list Hook :=
  match tr with
  | [] => []
  | EEnter h _ :: tr => h :: entered tr
  | _ :: tr => entered tr
  end.

(** [tp'] continues the log of [tp] by entries in which exactly the
    hooks [hs] are entered, in this order. *)
Definition enters {E : Env} (hs : list Hook) (tp tp' : PiiThreadedProcessor.t E)
    : Prop :=
  exists tr, PiiThreadedProcessor.trace tp' = PiiThreadedProcessor.trace tp ++ tr /\
             entered tr = hs.

End RunsMore.

(** ** Further operations used in examples *)

Module ScenarioMore.
Import PiiFlowController Ydin PiiOperation Scenario.

(** An operation whose flow controller throws an execution exception
    whenever it is queried. *)
Definition throwing (code : PiiExecutionException.Code) : Env :=
  {| FC := unit;
     prepareProcess := fun fc ins => (Throws code, fc, ins);
     body := fun _ _ _ => returns_at_once |}.

(** An armed and started synchronous processor of such an operation. *)
Definition running_throwing (code : PiiExecutionException.Code)
    : PiiSimpleProcessor.t (throwing code) :=
  PiiSimpleProcessor.mk (E := throwing code) Running true false (Some tt)
    [empty_socket 4] [].

(** A threaded processor of such an operation whose thread has just
    been woken at line 207. *)
Definition woken_throwing (code : PiiExecutionException.Code)
    : PiiThreadedProcessor.t (throwing code) :=
  PiiThreadedProcessor.mk (E := throwing code) Running false EmptyString false
    (Some tt) [empty_socket 4] PiiThreadedProcessor.AfterInputWait [].

(** A threaded processor whose thread is suspended at line 247. *)
Definition paused_thread : PiiThreadedProcessor.t plain :=
  PiiThreadedProcessor.mk (E := plain) Paused false EmptyString false
    (Some tt) [empty_socket 4] PiiThreadedProcessor.AtPausedWait [].

(** A threaded processor of an operation without connected inputs
    whose thread is at the loop test. *)
Definition producer : PiiThreadedProcessor.t plain :=
  PiiThreadedProcessor.mk (E := plain) Stopping false EmptyString false
    None [] PiiThreadedProcessor.AtLoopTest [].

End ScenarioMore.

(** * Properties *)

(** ** Machine integers *)

Module CIntFacts.
Import CInt.

Lemma mask_subnet_div (x : Z) : mask_subnet x = 32 * (x / 32).
Proof.
  unfold mask_subnet.
  change (Z.land x (Z.lnot 31)) with (Z.ldiff x (Z.ones 5)).
  rewrite Z.ldiff_ones_r by lia.
  rewrite Z.shiftr_div_pow2, Z.shiftl_mul_pow2 by lia.
  change (2 ^ 5) with 32. lia.
Qed.

Lemma mask_subnet_eq (x base : Z) :
  base mod 32 = 0 ->
  mask_subnet x = base <-> base <= x <= base + 31.
Proof.
  intros Hb. rewrite mask_subnet_div.
  pose proof (Z.div_mod x 32 ltac:(lia)) as Hx.
  pose proof (Z.mod_pos_bound x 32 ltac:(lia)) as Hr.
  pose proof (Z.div_mod base 32 ltac:(lia)) as Hbase.
  split; intros H; [lia|].
  assert (x / 32 = base / 32) as ->
    by (symmetry; apply Z.div_unique with (r := x - base); lia).
  lia.
Qed.

Lemma to_int_small (u : Z) : 0 <= u < 2 ^ 31 -> to_int u = u.
Proof.
  intros H. unfold to_int.
  rewrite Z.mod_small by lia.
  destruct (Z.ltb_spec u (2 ^ 31)); lia.
Qed.

Lemma to_int_large (u : Z) : 2 ^ 31 <= u < 2 ^ 32 -> to_int u = u - 2 ^ 32.
Proof.
  intros H. unfold to_int.
  rewrite Z.mod_small by lia.
  destruct (Z.ltb_spec u (2 ^ 31)); lia.
Qed.

End CIntFacts.

(** ** Type categories *)

Module TypeCategories.
Import PiiVariant PiiYdin.

(** What the three predicates decide on 32-bit tags. *)
Lemma isPrimitive_range (t : Z) :
  isPrimitive t = true <-> t <= 0x19.
Proof. unfold isPrimitive, LastPrimitiveType, VoidPtrType. apply Z.leb_le. Qed.

Lemma isControlType_range (t : Z) :
  is_tag t -> isControlType_tag t = true <-> 0x20 <= t <= 0x3f.
Proof.
  unfold is_tag, isControlType_tag, isControlType. intros Ht.
  rewrite Z.eqb_eq, (CIntFacts.mask_subnet_eq _ 0x20) by reflexivity.
  destruct (Z.lt_ge_cases t (2 ^ 31)).
  - rewrite CIntFacts.to_int_small by lia. lia.
  - rewrite CIntFacts.to_int_large by lia. lia.
Qed.

Lemma isMatrixType_range (t : Z) :
  is_tag t -> isMatrixType_tag t = true <-> 0x40 <= t <= 0x5f.
Proof.
  unfold is_tag, isMatrixType_tag, isMatrixType. intros Ht.
  rewrite Z.eqb_eq, (CIntFacts.mask_subnet_eq _ 0x40) by reflexivity.
  destruct (Z.lt_ge_cases t (2 ^ 31)).
  - rewrite CIntFacts.to_int_small by lia. lia.
  - rewrite CIntFacts.to_int_large by lia. lia.
Qed.

(** C3 (the code at the failing inputs): the tag 0x60 lies in the range
    0x40-0x7f reserved for matrices and 0x1a in the range 0x00-0x1f
    reserved for primitives, yet isMatrixType(0x60) and
    isPrimitive(0x1a) are both false; isControlType is true on the
    whole of its range, for instance at 0x3f. *)
Theorem C3_category_predicates_at_range_ends :
  is_tag 0x60 /\ isMatrixType_tag 0x60 = false /\
  is_tag 0x1a /\ isPrimitive 0x1a = false /\
  isControlType_tag 0x3f = true.
Proof. unfold is_tag. repeat split; (lia || reflexivity). Qed.

End TypeCategories.

(** ** Primitive variants *)

Module PrimitiveVariants.
Import PiiVariant.

Lemma low_bits_of_write (w hi v : Z) :
  0 < 2 ^ w -> (hi * 2 ^ w + v mod 2 ^ w) mod 2 ^ w = v mod 2 ^ w.
Proof.
  intros Hpos. rewrite Z.add_comm, Z_mod_plus_full. apply Z.mod_mod. lia.
Qed.

Lemma signed_of_mod (w v : Z) :
  0 < w -> - 2 ^ (w - 1) <= v < 2 ^ (w - 1) ->
  (if v mod 2 ^ w <? 2 ^ (w - 1) then v mod 2 ^ w else v mod 2 ^ w - 2 ^ w) = v.
Proof.
  intros Hw Hv.
  assert (2 ^ w = 2 * 2 ^ (w - 1)) as Hdouble
    by (rewrite <- Z.pow_succ_r by lia; f_equal; lia).
  destruct (Z.neg_nonneg_cases v) as [Hneg | Hnn].
  - rewrite <- (Z_mod_plus_full v 1 (2 ^ w)), Z.mod_small by lia.
    destruct (Z.ltb_spec (v + 1 * 2 ^ w) (2 ^ (w - 1))); lia.
  - rewrite Z.mod_small by lia.
    destruct (Z.ltb_spec v (2 ^ (w - 1))); lia.
Qed.

Lemma read_write_member (m : Member) (v old : Z) :
  in_range m v -> read_member m (write_member m v old) = v.
Proof.
  unfold in_range, read_member, write_member, CInt.signed_of, CInt.unsigned_of.
  intros Hv.
  assert (0 < 2 ^ member_width m) as Hpos by (destruct m; reflexivity).
  assert (0 < member_width m) as Hw by (destruct m; reflexivity).
  destruct (member_repr m); rewrite !low_bits_of_write by assumption.
  - now apply signed_of_mod.
  - apply Z.mod_small; lia.
  - apply Z.mod_small. destruct m; cbn in *; lia.
Qed.

(** C8: for each of the twelve primitive types T and every value v of
    T, the variant constructed from v has T's type ID, has no function
    table, and valueAs<T>() reads v back, whatever the union's memory
    held before. *)
Theorem C8_primitive_roundtrip (T : CType) (v uninit : Z) :
  in_range (PREFIX T) v ->
  valueAs T (PiiVariant T v uninit) = v /\
  type (PiiVariant T v uninit) = typeId T /\
  isPrimitive (type (PiiVariant T v uninit)) = true /\
  _pVTable (PiiVariant T v uninit) = None.
Proof.
  intros Hv. unfold valueAs, PiiVariant, type, typeId. cbn [_value _uiType _pVTable].
  split; [now apply read_write_member|].
  repeat split. destruct T; reflexivity.
Qed.

Lemma C8_primitive_roundtrip_witness :
  in_range (PREFIX c_short) (-3) /\
  valueAs c_short (PiiVariant c_short (-3) 0x1122334455667788) = -3 /\
  type (PiiVariant c_short (-3) 0x1122334455667788) = ShortType.
Proof.
  assert (in_range (PREFIX c_short) (-3)) as H by (cbv; split; congruence).
  pose proof (C8_primitive_roundtrip c_short (-3) 0x1122334455667788 H) as (H1 & H2 & _).
  exact (conj H (conj H1 H2)).
Defined.

End PrimitiveVariants.

(** ** Conversion *)

Module Conversion.
Import PiiVariant ConversionExamples.

(** The registry key keeps both tags apart: the source tag in the low
    32 bits and the target tag in the high 32 bits. *)
Lemma toKey_unsigned (fromType toType : Z) :
  is_tag fromType -> is_tag toType ->
  toKey fromType toType mod 2 ^ 64 = fromType + toType * 2 ^ 32.
Proof.
  unfold is_tag, toKey, CInt.signed_of. intros Hf Ht.
  rewrite Z.shiftl_mul_pow2 by lia.
  assert (Z.land fromType (toType * 2 ^ 32) = 0) as Hdisjoint.
  { apply Z.bits_inj'. intros n Hn. rewrite Z.land_spec, Z.bits_0.
    destruct (Z.lt_ge_cases n 32).
    - rewrite Z.mul_pow2_bits_low by lia. apply andb_false_r.
    - destruct (Z.eq_dec fromType 0) as [-> | Hne].
      + now rewrite Z.bits_0.
      + rewrite (Z.bits_above_log2 fromType n); [reflexivity | lia |].
        apply Z.lt_le_trans with 32; [|assumption].
        apply Z.log2_lt_pow2; lia. }
  change (64 - 1) with 63.
  change (2 ^ 64) with 18446744073709551616 in *.
  change (2 ^ 63) with 9223372036854775808 in *.
  change (2 ^ 32) with 4294967296 in *.
  rewrite (Z.mod_small (toType * 4294967296)) by lia.
  rewrite <- Z.lxor_lor, <- Z.add_nocarry_lxor by assumption.
  set (k := fromType + toType * 4294967296).
  assert (0 <= k < 18446744073709551616) as Hk by (subst k; lia).
  rewrite (Z.mod_small k) by lia.
  destruct (Z.ltb_spec k 9223372036854775808).
  - apply Z.mod_small; lia.
  - rewrite <- (Z_mod_plus_full _ 1), Z.mod_small; lia.
Qed.

(** X5: two pairs of 32-bit type IDs with the same registry key are
    the same pair, so converters registered for different pairs never
    replace each other. *)
Lemma toKey_inj (f1 t1 f2 t2 : Z) :
  is_tag f1 -> is_tag t1 -> is_tag f2 -> is_tag t2 ->
  toKey f1 t1 = toKey f2 t2 -> f1 = f2 /\ t1 = t2.
Proof.
  intros Hf1 Ht1 Hf2 Ht2 Heq.
  pose proof (toKey_unsigned f1 t1 Hf1 Ht1) as H1.
  pose proof (toKey_unsigned f2 t2 Hf2 Ht2) as H2.
  rewrite Heq, H2 in H1. unfold is_tag in *.
  change (2 ^ 32) with 4294967296 in *. lia.
Qed.

Section Generic.
Variable T : Type.
Variable T_default : T.
Variable typeId_T : Z.
Variable ptrAs : t -> T.
Variable converterMap : gmap Z (ConverterFunction T).

Let convertTo := convertTo T T_default typeId_T ptrAs converterMap.
Let converter := converter T converterMap.

Lemma convertTo_same_type (v : t) :
  type v = typeId_T -> convertTo v = (ptrAs v, true).
Proof.
  unfold convertTo, PiiVariant.convertTo, convertTo_ref, type. intros ->.
  now rewrite Z.eqb_refl.
Qed.

Lemma convertTo_no_converter (v : t) :
  type v <> typeId_T -> converter (type v) typeId_T = None ->
  convertTo v = (T_default, false).
Proof.
  unfold convertTo, converter, PiiVariant.convertTo, convertTo_ref, type.
  intros Hne Hnone. apply Z.eqb_neq in Hne. now rewrite Hne, Hnone.
Qed.

Lemma convertTo_with_converter (v : t) (convert : ConverterFunction T) :
  type v <> typeId_T -> converter (type v) typeId_T = Some convert ->
  convertTo v = (snd (convert v T_default), fst (convert v T_default)).
Proof.
  unfold convertTo, converter, PiiVariant.convertTo, convertTo_ref, type.
  intros Hne Hsome. apply Z.eqb_neq in Hne. rewrite Hne, Hsome.
  now destruct (convert v T_default).
Qed.

End Generic.

(** Converting a primitive variant to its own type gives back the
    value it was constructed from. *)
Lemma convertTo_primitive_reflexive (P : CType) (v uninit default : Z)
    (converterMap : gmap Z (ConverterFunction Z)) :
  in_range (PREFIX P) v ->
  convertTo Z default (typeId P) (valueAs P) converterMap (PiiVariant P v uninit)
  = (v, true).
Proof.
  intros Hv. rewrite convertTo_same_type by reflexivity.
  unfold valueAs, PiiVariant. cbn [_value].
  now rewrite PrimitiveVariants.read_write_member.
Qed.

(** C4 (amended): when the variant's type is Pii::typeId<T>(),
    convertTo<T> returns the stored value with ok true; it is
    reflexive on the primitive types. Otherwise, when no converter is
    registered for the pair of types it returns a default-constructed
    T with ok false, and when one is registered it returns what the
    converter reports as ok together with what the converter left in
    the output location, which held a default-constructed T when the
    converter was called. *)
Theorem C4_convertTo_cases :
  (forall (T : Type) (T_default : T) (typeId_T : Z) (ptrAs : t -> T)
          (converterMap : gmap Z (ConverterFunction T)) (v : t),
     (type v = typeId_T ->
        convertTo T T_default typeId_T ptrAs converterMap v = (ptrAs v, true)) /\
     (type v <> typeId_T ->
        converter T converterMap (type v) typeId_T = None ->
        convertTo T T_default typeId_T ptrAs converterMap v = (T_default, false)) /\
     (forall convert,
        type v <> typeId_T ->
        converter T converterMap (type v) typeId_T = Some convert ->
        convertTo T T_default typeId_T ptrAs converterMap v
        = (snd (convert v T_default), fst (convert v T_default)))) /\
  (forall (P : CType) (v uninit default : Z)
          (converterMap : gmap Z (ConverterFunction Z)),
     in_range (PREFIX P) v ->
     convertTo Z default (typeId P) (valueAs P) converterMap (PiiVariant P v uninit)
     = (v, true)).
Proof.
  split; [|exact convertTo_primitive_reflexive].
  intros T T_default typeId_T ptrAs converterMap v.
  split; [apply convertTo_same_type|].
  split; [apply convertTo_no_converter|].
  intros convert. apply convertTo_with_converter.
Qed.

Lemma C4_convertTo_cases_witness :
  type an_int = IntType /\
  convertTo Z 0 IntType (valueAs c_int) failing_registry an_int = (42, true) /\
  type a_double <> IntType /\
  convertTo Z 0 IntType (valueAs c_int) ∅ a_double = (0, false).
Proof.
  pose proof C4_convertTo_cases as (Hcases & _).
  pose proof (Hcases Z 0 IntType (valueAs c_int) failing_registry an_int)
    as (Hsame & _ & _).
  pose proof (Hcases Z 0 IntType (valueAs c_int) ∅ a_double)
    as (_ & Hnone & _).
  assert (type a_double <> IntType) as Hne by (vm_compute; congruence).
  exact (conj eq_refl (conj (Hsame eq_refl) (conj Hne (Hnone Hne eq_refl)))).
Defined.

(** C4 (counterexample): a converter is registered for (double, int)
    and reports failure, yet convertTo<int> does not return a
    default-constructed int: it returns the 7 the converter stored. *)
Lemma C4_failed_converter_result_not_default :
  type a_double <> IntType /\
  converter Z failing_registry (type a_double) IntType = Some failing_converter /\
  fst (failing_converter a_double 0) = false /\
  convertTo Z 0 IntType (valueAs c_int) failing_registry a_double = (7, false) /\
  convertTo Z 0 IntType (valueAs c_int) failing_registry a_double <> (0, false).
Proof.
  assert (convertTo Z 0 IntType (valueAs c_int) failing_registry a_double = (7, false))
    as Hrun by reflexivity.
  split; [vm_compute; congruence|].
  split; [reflexivity|].
  split; [reflexivity|].
  split; [exact Hrun|].
  rewrite Hrun. congruence.
Qed.

End Conversion.

(** ** The synchronous processor: admission *)

Module SimpleAdmission.
Import PiiFlowController Ydin PiiOperation PiiSimpleProcessor Scenario.

Section Admission.
Context {E : Env}.
Implicit Types op : t E.

Lemma wake_up_fields op :
  inputs (wake_up op) = inputs op /\
  _bReset (wake_up op) = _bReset op /\
  _bProcessing (wake_up op) = _bProcessing op /\
  _pFlowController (wake_up op) = _pFlowController op.
Proof. unfold wake_up. now destruct (_ || _). Qed.

Lemma wake_up_state op :
  (state op = Stopped \/ state op = Paused) ->
  state (wake_up op) = Running /\
  trace (wake_up op) = trace op ++ [SetBy MTryToReceive Running].
Proof. unfold wake_up. intros [-> | ->]; now cbn. Qed.

Lemma wake_up_idle op :
  state op <> Stopped -> state op <> Paused -> wake_up op = op.
Proof.
  unfold wake_up. intros H1 H2.
  now rewrite !bool_decide_eq_false_2 by assumption.
Qed.

Lemma admission_unarmed sender object op :
  _bReset op = false -> admission sender object op = Returned Discarded.
Proof. unfold admission. now intros ->. Qed.

Lemma admission_full sender object op pInput :
  _bReset op = true -> inputs op !! sender = Some pInput ->
  canReceive pInput = false ->
  admission sender object op = Returned (Rejected (wake_up op)).
Proof.
  unfold admission. intros Hon Hin Hfull.
  destruct (wake_up_fields op) as (Hi & _).
  rewrite Hon. cbn [negb]. cbv zeta. now rewrite Hi, Hin, Hfull.
Qed.

Lemma admission_accepts sender object op pInput :
  _bReset op = true -> inputs op !! sender = Some pInput ->
  canReceive pInput = true ->
  admission sender object op
  = Returned (Accepted (with_inputs (<[sender := receive object pInput]> (inputs op))
                                    (wake_up op))).
Proof.
  unfold admission. intros Hon Hin Hfree.
  destruct (wake_up_fields op) as (Hi & _).
  rewrite Hon. cbn [negb]. cbv zeta. now rewrite Hi, Hin, Hfree.
Qed.

(** C2 (amended): tryToReceive returns true and leaves everything as
    it is when the processor is not armed. When it is armed and the
    socket cannot receive, it returns false with the socket and the
    flags unchanged; the operation's state is unchanged too unless
    it was Stopped or Paused, which the call has already turned into
    Running. When it is armed and the socket can receive, the object
    is appended to the socket's queue and the call returns true: at
    once if a dispatch is under way, and otherwise as soon as its
    own dispatch loop returns. *)
Theorem C2_tryToReceive_admission
    (perform : Call -> t E -> Result (t E)) (n sender : nat) (object : Obj) op :
  (_bReset op = false ->
     tryToReceive perform n sender object op = Returned (true, op)) /\
  (forall pInput,
     _bReset op = true -> inputs op !! sender = Some pInput ->
     canReceive pInput = false ->
     tryToReceive perform n sender object op = Returned (false, wake_up op) /\
     inputs (wake_up op) = inputs op /\
     _bReset (wake_up op) = _bReset op /\
     _bProcessing (wake_up op) = _bProcessing op /\
     (state op <> Stopped -> state op <> Paused -> wake_up op = op) /\
     (state op = Stopped \/ state op = Paused -> state (wake_up op) = Running)) /\
  (forall pInput,
     _bReset op = true -> inputs op !! sender = Some pInput ->
     canReceive pInput = true ->
     let accepted :=
       with_inputs (<[sender := receive object pInput]> (inputs op)) (wake_up op) in
     inputs accepted !! sender = Some (receive object pInput) /\
     queue (receive object pInput) = queue pInput ++ [object] /\
     tryToReceive perform n sender object op
     = if _bProcessing op then Returned (true, accepted)
       else '(ex, op') ← dispatch_loop perform n accepted;
            mret (true, from_option (fun code => catch_execution code op') op' ex)).
Proof.
  split; [|split].
  - intros Hoff. unfold tryToReceive. now rewrite admission_unarmed.
  - intros pInput Hon Hin Hfull.
    destruct (wake_up_fields op) as (Hi & Hr & Hp & _).
    repeat split; try assumption.
    + unfold tryToReceive. now rewrite (admission_full _ _ _ pInput).
    + apply wake_up_idle.
    + intros Hst. now apply wake_up_state.
  - intros pInput Hon Hin Hfree accepted.
    destruct (wake_up_fields op) as (Hi & Hr & Hp & _).
    split; [|split].
    + subst accepted. cbn. apply list_lookup_insert_eq.
      now apply lookup_lt_Some with pInput.
    + reflexivity.
    + unfold tryToReceive. rewrite (admission_accepts _ _ _ pInput) by assumption.
      fold accepted. cbn.
      replace (_bProcessing (wake_up op)) with (_bProcessing op) by congruence.
      destruct (_bProcessing op); [reflexivity|].
      destruct (dispatch_loop perform n accepted) as [[[code|] op']| |]; reflexivity.
Qed.

(** C9 (amended): an admission call on an armed processor whose
    state is Stopped or Paused sets the state to Running itself,
    before it looks at the socket. An object is therefore accepted in
    state Running when the state on entry was Stopped, Paused or
    Running; a processor entered in state Starting, Pausing, Stopping
    or Interrupted accepts the object in that state. *)
Theorem C9_state_when_accepting (sender : nat) (object : Obj) op :
  _bReset op = true ->
  (state op = Stopped \/ state op = Paused ->
     state (wake_up op) = Running /\
     trace (wake_up op) = trace op ++ [SetBy MTryToReceive Running]) /\
  (forall op',
     admission sender object op = Returned (Rejected op') -> op' = wake_up op) /\
  (forall op',
     admission sender object op = Returned (Accepted op') ->
     state op' = state (wake_up op) /\
     ((state op' = Running /\
       (state op = Stopped \/ state op = Paused \/ state op = Running)) \/
      (state op' = state op /\
       (state op = Starting \/ state op = Pausing \/
        state op = Stopping \/ state op = Interrupted)))).
Proof.
  intros Hon. split; [apply wake_up_state|].
  unfold admission. rewrite Hon. cbn [negb]. cbv zeta.
  destruct (inputs (wake_up op) !! sender) as [pInput|]; [|split; intros; discriminate].
  destruct (canReceive pInput); split; intros op' Heq; inversion Heq; subst; clear Heq;
    try reflexivity.
  split; [reflexivity|].
  unfold wake_up. destruct (state op) eqn:Hst; cbn; rewrite ?Hst; auto 10.
Qed.

End Admission.

Lemma C2_tryToReceive_admission_witness :
  _bReset paused_full = true /\
  inputs paused_full !! 0%nat = Some full_socket /\
  canReceive full_socket = false /\
  tryToReceive (perform 3) 3 0 B paused_full = Returned (false, wake_up paused_full).
Proof.
  pose proof (C2_tryToReceive_admission (perform 3) 3 0 B paused_full) as (_ & Hfull & _).
  specialize (Hfull full_socket eq_refl eq_refl eq_refl) as (Hrun & _).
  exact (conj eq_refl (conj eq_refl (conj eq_refl Hrun))).
Defined.

(** C2 (counterexample): an armed processor in state Paused whose
    socket is full returns false, and its state is then Running. *)
Lemma C2_rejection_changes_state :
  _bReset paused_full = true /\
  inputs paused_full !! 0%nat = Some full_socket /\
  canReceive full_socket = false /\
  state paused_full = Paused /\
  (r ← run_tryToReceive 3 0 B paused_full; mret (r.1, state r.2, inputs r.2))
  = Returned (false, Running, inputs paused_full) /\
  Running <> state paused_full.
Proof. repeat split. discriminate. Qed.

Lemma C9_state_when_accepting_witness :
  _bReset paused_full = true /\
  state paused_full = Paused /\
  state (wake_up paused_full) = Running.
Proof.
  pose proof (C9_state_when_accepting 0 B paused_full eq_refl) as (Hwake & _).
  destruct (Hwake (or_intror eq_refl)) as (Hrun & _).
  exact (conj eq_refl (conj eq_refl Hrun)).
Defined.

(** C9 (counterexample): after check(true), start() and stop() the
    processor is armed and in state Stopping; it accepts the next
    object in that state, not in Running. *)
Lemma C9_accepts_while_stopping :
  (op ← stop_requested; mret (_bReset op, state op)) = Returned (true, Stopping) /\
  (op ← stop_requested; a ← admission 0 A op; mret (accepting_state a))
  = Returned (Some Stopping) /\
  Stopping <> Running.
Proof. repeat split. discriminate. Qed.

(** C10: wait() returns true for every timeout and every processor. *)
Theorem C10_wait_returns_true (E : Env) (time : Z) (op : t E) :
  wait time op = true.
Proof. reflexivity. Qed.

End SimpleAdmission.

(** ** interrupt() in the two processors *)

Module Interruption.
Import PiiFlowController Ydin PiiOperation Scenario.
Module S := PiiSimpleProcessor.
Module T := PiiThreadedProcessor.

Lemma simple_interrupt_state (E : Env) (op : S.t E) :
  S.state (S.interrupt op) = Stopped /\ S._bReset (S.interrupt op) = false.
Proof. split; reflexivity. Qed.

Lemma threaded_interrupt_state (E : Env) (tp : T.t E) :
  T.state (T.interrupt tp)
  = (if bool_decide (T.state tp = Stopped) then Stopped else Interrupted).
Proof.
  unfold T.interrupt. destruct (bool_decide _) eqn:Hst; [|reflexivity].
  now apply bool_decide_eq_true_1 in Hst.
Qed.

Lemma threaded_interrupt_signals (E : Env) (tp : T.t E) :
  T._inputCondition (T.interrupt tp) = true /\
  T.position (T.interrupt tp) = T.position tp.
Proof. unfold T.interrupt. now destruct (bool_decide _). Qed.

(** A thread that waits on the condition takes its next step once
    interrupt() has been called. *)
Lemma threaded_interrupt_wakes (E : Env) (n : nat) (tp : T.t E) :
  T.is_waiting tp = true ->
  exists tp', T.thread_step n (T.interrupt tp) = Returned (T.Next tp') /\
              T.state tp' = T.state (T.interrupt tp).
Proof.
  intros Hwait.
  destruct (threaded_interrupt_signals E tp) as (Hsig & Hpos).
  unfold T.is_waiting in Hwait. unfold T.thread_step. rewrite Hpos, Hsig.
  destruct (T.position tp); try discriminate; eexists; split; reflexivity.
Qed.

(** C5 (amended): interrupt() of the synchronous processor moves the
    operation to Stopped from every state and disarms the processor;
    interrupt() of the threaded processor moves the operation to
    Interrupted from every state but Stopped, which it leaves as it
    is, and in every state it signals the wait condition, so that a
    thread waiting on it goes on and sees the state the call left. *)
Theorem C5_interrupt_effect (E : Env) :
  (forall op : S.t E,
     S.state (S.interrupt op) = Stopped /\ S._bReset (S.interrupt op) = false) /\
  (forall tp : T.t E,
     (T.state tp <> Stopped -> T.state (T.interrupt tp) = Interrupted) /\
     (T.state tp = Stopped -> T.state (T.interrupt tp) = Stopped) /\
     T._inputCondition (T.interrupt tp) = true /\
     (T.is_waiting tp = true ->
      forall n, exists tp',
        T.thread_step n (T.interrupt tp) = Returned (T.Next tp') /\
        T.state tp' = T.state (T.interrupt tp))).
Proof.
  split; [apply simple_interrupt_state|].
  intros tp. rewrite threaded_interrupt_state.
  split; [|split; [|split]].
  - intros Hne. now rewrite bool_decide_eq_false_2.
  - intros Heq. now rewrite bool_decide_eq_true_2.
  - apply threaded_interrupt_signals.
  - intros Hwait n. rewrite <- threaded_interrupt_state.
    now apply threaded_interrupt_wakes.
Qed.

Lemma C5_interrupt_effect_witness :
  T.state (waiting_thread plain tt) <> Stopped /\
  T.state (T.interrupt (waiting_thread plain tt)) = Interrupted /\
  S.state (S.interrupt dispatching) = Stopped.
Proof.
  pose proof (C5_interrupt_effect plain) as (Hs & Ht).
  destruct (Ht (waiting_thread plain tt)) as (Hint & _).
  assert (T.state (waiting_thread plain tt) <> Stopped) as Hne by discriminate.
  exact (conj Hne (conj (Hint Hne) (proj1 (Hs dispatching)))).
Defined.

(** C5 (counterexample): interrupt() of the synchronous processor
    takes a Running operation to Stopped, and interrupt() of the
    threaded processor leaves a Stopped operation Stopped; neither
    state is Interrupted. *)
Lemma C5_interrupt_not_always_interrupted :
  S.state dispatching = Running /\
  S.state (S.interrupt dispatching) = Stopped /\
  T.state idle_threaded = Stopped /\
  T.state (T.interrupt idle_threaded) = Stopped /\
  Stopped <> Interrupted.
Proof. repeat split. discriminate. Qed.

(** C7 (amended): when interrupt() is called on a threaded processor
    whose thread is blocked at the wait for input (no signal pending,
    operation not Stopped), the thread wakes up, sees Interrupted and
    returns from run() without any hook having been invoked; the state
    is Interrupted when run() returns, and the handler of the thread's
    finished() signal then sets it to Stopped, which is the state once
    the thread has terminated. *)
Theorem C7_interrupt_blocked_thread (E : Env) (n : nat) (tp : T.t E) :
  T.position tp = T.AtInputWait ->
  T._inputCondition tp = false ->
  T.state tp <> Stopped ->
  T.thread_step n tp = Returned T.Blocked /\
  exists woken returned final,
    T.thread_step n (T.interrupt tp) = Returned (T.Next woken) /\
    T.thread_step n woken = Returned (T.Next returned) /\
    T.position returned = T.RunReturned /\
    T.state returned = Interrupted /\
    T.trace returned = T.trace tp ++ [ESetState Interrupted] /\
    T.thread_step n returned = Returned (T.Next final) /\
    T.position final = T.Terminated /\
    T.state final = Stopped /\
    T.trace final = T.trace tp ++ [ESetState Interrupted; ESetState Stopped] /\
    T.thread_step n final = Returned T.Halted /\
    T.thread_run 4 n (T.interrupt tp) = Returned final.
Proof.
  intros Hpos Hsig Hst.
  split; [unfold T.thread_step; now rewrite Hpos, Hsig|].
  destruct tp as [st rc name sig fc ins pos tr]. cbn in Hpos, Hsig, Hst. subst pos sig.
  unfold T.interrupt. cbn [T.state].
  rewrite bool_decide_eq_false_2 by assumption.
  do 3 eexists.
  split; [reflexivity|]. split; [reflexivity|]. split; [reflexivity|].
  split; [reflexivity|]. split; [reflexivity|]. split; [reflexivity|].
  split; [reflexivity|]. split; [reflexivity|].
  split; [cbn; now rewrite <- app_assoc|].
  split; reflexivity.
Qed.

Lemma C7_interrupt_blocked_thread_witness :
  T.thread_step 3 (waiting_thread plain tt) = Returned T.Blocked /\
  (tp ← T.thread_run 4 3 (T.interrupt (waiting_thread plain tt));
   mret (T.position tp, T.state tp, T.trace tp))
  = Returned (T.Terminated, Stopped, [ESetState Interrupted; ESetState Stopped]).
Proof.
  assert (T.state (waiting_thread plain tt) <> Stopped) as Hne by discriminate.
  destruct (C7_interrupt_blocked_thread plain 3 (waiting_thread plain tt)
              eq_refl eq_refl Hne) as (Hblocked & _).
  exact (conj Hblocked eq_refl).
Defined.

(** C7 (counterexample): the thread of a Running operation is blocked
    waiting for input; after interrupt() it runs to its end, and the
    operation is then Stopped, not Interrupted. *)
Lemma C7_final_state_is_stopped :
  T.thread_step 3 (waiting_thread plain tt) = Returned T.Blocked /\
  (tp ← T.thread_run 4 3 (T.interrupt (waiting_thread plain tt));
   mret (T.position tp, T.state tp))
  = Returned (T.Terminated, Stopped) /\
  Stopped <> Interrupted.
Proof. repeat split. discriminate. Qed.

End Interruption.

(** ** The synchronous processor: what a run adds to the log *)

Module SimpleRuns.
Import PiiFlowController Ydin PiiOperation PiiSimpleProcessor Runs Scenario.

Lemma post_ret {A : Type} (a : A) (Q : A -> Prop) : Q a -> post (mret a) Q.
Proof. exact id. Qed.

Lemma post_bind {A B : Type} (r : Result A) (k : A -> Result B)
    (Q : A -> Prop) (R : B -> Prop) :
  post r Q -> (forall a, Q a -> post (k a) R) -> post (r ≫= k) R.
Proof. destruct r; cbn; auto. Qed.

Lemma post_weaken {A : Type} (r : Result A) (Q R : A -> Prop) :
  post r Q -> (forall a, Q a -> R a) -> post r R.
Proof. destruct r; cbn; auto. Qed.

Lemma post_returned {A : Type} (r : Result A) (Q : A -> Prop) (a : A) :
  post r Q -> r = Returned a -> Q a.
Proof. intros Hpost ->. exact Hpost. Qed.

Section Extends.
Context {E : Env}.
Variable Q : list Entry -> Prop.
Hypothesis Q_nil : Q [].
Hypothesis Q_app : forall t1 t2, Q t1 -> Q t2 -> Q (t1 ++ t2).
Implicit Types op : t E.

Lemma extends_same op op' : trace op' = trace op -> extends Q op op'.
Proof. intros Heq. exists []. now rewrite app_nil_r. Qed.

Lemma extends_refl op : extends Q op op.
Proof. now apply extends_same. Qed.

Lemma extends_trans op1 op2 op3 :
  extends Q op1 op2 -> extends Q op2 op3 -> extends Q op1 op3.
Proof.
  intros (t1 & H1 & Q1) (t2 & H2 & Q2). exists (t1 ++ t2).
  split; [now rewrite H2, H1, app_assoc | now apply Q_app].
Qed.

Lemma extends_by op op' tr :
  trace op' = trace op ++ tr -> Q tr -> extends Q op op'.
Proof. intros Heq HQ. now exists tr. Qed.
End Extends.

(** *** Every state change is one its member function may make *)

Lemma all_allowed_nil : all_allowed [].
Proof. constructor. Qed.

Lemma all_allowed_app t1 t2 :
  all_allowed t1 -> all_allowed t2 -> all_allowed (t1 ++ t2).
Proof. apply Forall_app_2. Qed.

Lemma all_allowed_one e : allowed e = true -> all_allowed [e].
Proof. intros He. now repeat constructor. Qed.

Create HintDb runs.
#[local] Hint Resolve all_allowed_nil all_allowed_app : runs.

Section Allowed.
Context {E : Env}.
Implicit Types op : t E.

Abbreviation ext := (extends (E := E) all_allowed).

Lemma ext_refl op : ext op op.
Proof. apply extends_refl; auto with runs. Qed.

Lemma ext_trans op1 op2 op3 : ext op1 op2 -> ext op2 op3 -> ext op1 op3.
Proof. apply extends_trans; auto with runs. Qed.

Lemma ext_one op op' e :
  trace op' = trace op ++ [e] -> allowed e = true -> ext op op'.
Proof. intros Heq He. eapply extends_by; [eassumption | now apply all_allowed_one]. Qed.

Lemma ext_wake_up op : ext op (wake_up op).
Proof.
  unfold wake_up. destruct (_ || _); [|apply ext_refl].
  now apply ext_one with (SetBy MTryToReceive Running).
Qed.

Lemma ext_catch code op : ext op (catch_execution code op).
Proof.
  unfold catch_execution. destruct (_ && _).
  - now apply ext_one with (SetBy MTryToReceive Paused).
  - destruct (bool_decide (code = PiiExecutionException.Error)).
    + apply ext_trans with (log (Ev EErrorOccured) op).
      * now apply ext_one with (Ev EErrorOccured).
      * now apply ext_one with (SetBy MTryToReceive Stopped).
    + now apply ext_one with (SetBy MTryToReceive Stopped).
Qed.

Lemma ext_interrupt op : ext op (interrupt op).
Proof. now apply ext_one with (SetBy MInterrupt Stopped). Qed.

Lemma ext_check reset op : ext op (check reset op).
Proof. apply extends_same; auto with runs. now destruct reset. Qed.

Section Methods.
Variable perform : Call -> t E -> Result (t E).
Hypothesis perform_ext : forall c op, post (perform c op) (ext op).

Lemma run_calls_ext cs : forall op, post (run_calls perform cs op) (ext op).
Proof.
  induction cs as [|c cs IH]; intros op; cbn [run_calls].
  - apply post_ret, ext_refl.
  - eapply post_bind; [apply perform_ext|]. intros op1 H1.
    eapply post_weaken; [apply IH|]. intros op2. now apply ext_trans.
Qed.

Lemma invoke_ext h op : post (invoke perform h op) (fun r => ext op r.2).
Proof.
  unfold invoke. cbv zeta.
  eapply post_bind; [apply run_calls_ext|]. intros op1 H1.
  apply post_ret. cbn [snd].
  eapply ext_trans; [|eapply ext_trans; [exact H1|]].
  - now eapply ext_one.
  - now eapply ext_one.
Qed.

Lemma invoke_all_ext hs :
  forall op, post (invoke_all perform hs op) (fun r => ext op r.2).
Proof.
  induction hs as [|h hs IH]; intros op; cbn [invoke_all].
  - apply post_ret, ext_refl.
  - eapply post_bind; [apply invoke_ext|]. intros [[code|] op1] H1; cbn [snd] in H1.
    + now apply post_ret.
    + eapply post_weaken; [apply IH|]. intros r. now apply ext_trans.
Qed.

Lemma dispatch_loop_ext n :
  forall op, post (dispatch_loop perform n op) (fun r => ext op r.2).
Proof.
  induction n as [|n IH]; intros op; cbn [dispatch_loop]; [exact I|].
  destruct (_pFlowController op) as [fc|]; [|exact I].
  destruct (prepareProcess E fc (inputs op)) as [[prepared fc'] ins].
  set (op1 := log (Ev EPrepare) (with_inputs ins (with_flowController fc' op))).
  assert (ext op op1) as H1 by now apply ext_one with (Ev EPrepare).
  destruct prepared as [verdict|code]; [|now apply post_ret].
  assert (post
            ('(ex, op2) ← invoke_all perform (sendSyncEvents :: dispatch verdict)
                             (with_bProcessing true op1);
             match ex with
             | Some code => mret (Some code, op2)
             | None =>
               if _bReset (with_bProcessing false op2)
               then dispatch_loop perform n (with_bProcessing false op2)
               else mret (None, with_bProcessing false op2)
             end)
            (fun r => ext op r.2)) as Hgo.
  { eapply post_bind; [apply invoke_all_ext|].
    intros [[code|] op2] H2; cbn [snd] in H2.
    - apply post_ret. cbn [snd]. eapply ext_trans; [exact H1|exact H2].
    - assert (ext op (with_bProcessing false op2)) as H3
        by (eapply ext_trans; [exact H1|exact H2]).
      destruct (_bReset _).
      + eapply post_weaken; [apply IH|]. intros r. now apply ext_trans.
      + now apply post_ret. }
  destruct verdict; try exact Hgo. now apply post_ret.
Qed.

Lemma tryToReceive_ext n sender object op :
  post (tryToReceive perform n sender object op) (fun r => ext op r.2).
Proof.
  unfold tryToReceive, admission.
  destruct (_bReset op); cbn [negb]; [|apply post_ret, ext_refl].
  cbv zeta. pose proof (ext_wake_up op) as Hw.
  destruct (inputs (wake_up op) !! sender) as [pInput|]; [|exact I].
  destruct (canReceive pInput); cbn; [|exact Hw].
  destruct (_bProcessing (wake_up op)); [exact Hw|].
  eapply post_bind; [apply dispatch_loop_ext|].
  intros [[code|] op1] H1; cbn [snd] in H1; apply post_ret; cbn [snd].
  - eapply ext_trans; [exact Hw|]. eapply ext_trans; [exact H1|apply ext_catch].
  - eapply ext_trans; [exact Hw|exact H1].
Qed.

Lemma invoke_quietly_ext h op : post (invoke_quietly perform h op) (ext op).
Proof.
  unfold invoke_quietly. eapply post_bind; [apply invoke_ext|].
  now intros [ex op1] H1.
Qed.

Lemma start_ext op : post (start perform op) (ext op).
Proof.
  unfold start. destruct (bool_decide (state op = Pausing)); [apply post_ret, ext_refl|].
  assert (ext op (setState MStart Running op)) as Hset
    by now apply ext_one with (SetBy MStart Running).
  destruct (bool_decide (state op = Paused)); [|now apply post_ret].
  destruct (_pFlowController op); [apply post_ret, ext_refl|].
  eapply post_weaken; [apply invoke_quietly_ext|]. intros r. now apply ext_trans.
Qed.

Lemma stop_to_ext finalState op :
  finalState = Stopped \/ finalState = Paused ->
  post (stop_to perform finalState op) (ext op).
Proof.
  intros Hfinal. unfold stop_to.
  destruct (bool_decide (state op = Running)); [|apply post_ret, ext_refl].
  destruct (_pFlowController op).
  - apply post_ret. eapply ext_one; [reflexivity|]. now destruct (bool_decide _).
  - cbv zeta.
    assert (ext op (setState MStop finalState op)) as Hset
      by (eapply ext_one; [reflexivity|]; now destruct Hfinal as [-> | ->]).
    destruct (bool_decide (finalState = Paused));
      (eapply post_weaken; [apply invoke_quietly_ext|]);
      intros r; now apply ext_trans.
Qed.

Lemma reconfigure_ext name op : post (reconfigure perform name op) (ext op).
Proof.
  unfold reconfigure. destruct (_pFlowController op); [apply post_ret, ext_refl|].
  eapply post_bind; [apply invoke_ext|].
  intros [[code|] op1] H1; cbn [snd] in H1; apply post_ret; [|exact H1].
  eapply ext_trans; [exact H1|]. now eapply ext_one.
Qed.

Lemma perform_call_ext n c op : post (perform_call perform n c op) (ext op).
Proof.
  destruct c; cbn [perform_call].
  - eapply post_bind; [apply tryToReceive_ext|]. now intros [b op1] H1.
  - apply post_ret, ext_check.
  - apply reconfigure_ext.
  - apply start_ext.
  - apply post_ret, ext_interrupt.
  - apply stop_to_ext. now right.
  - apply stop_to_ext. now left.
Qed.

End Methods.

Lemma perform_allowed fuel :
  forall c op, post (PiiSimpleProcessor.perform fuel c op) (ext op).
Proof.
  induction fuel as [|fuel IH]; intros c op; cbn [PiiSimpleProcessor.perform];
    [exact I|].
  now apply perform_call_ext.
Qed.

Lemma stop_connected (perform : Call -> t E -> Result (t E)) op :
  state op = Running -> is_Some (_pFlowController op) ->
  stop perform op = Returned (setState MStop Stopping op) /\
  pause perform op = Returned (setState MStop Pausing op).
Proof.
  intros Hrun [fc Hfc]. unfold stop, pause, stop_to.
  now rewrite Hrun, Hfc.
Qed.

Lemma stop_unconnected (perform : Call -> t E -> Result (t E)) op :
  state op = Running -> _pFlowController op = None ->
  stop perform op
  = invoke_quietly perform operationStopped (setState MStop Stopped op) /\
  pause perform op
  = invoke_quietly perform operationPaused (setState MStop Paused op).
Proof.
  intros Hrun Hfc. unfold stop, pause, stop_to.
  now rewrite Hrun, Hfc.
Qed.

End Allowed.

(** *** Hook invocations do not overlap *)

Lemma scan_app inside t1 t2 :
  scan inside (t1 ++ t2) = scan inside t1 ≫= fun inside' => scan inside' t2.
Proof.
  revert inside. induction t1 as [|e t1 IH]; intros inside; [reflexivity|].
  destruct e as [[]|]; destruct inside; cbn; auto.
Qed.

Lemma scan_quiet inside tr : all_quiet tr -> scan inside tr = Some inside.
Proof.
  induction 1 as [|e tr He _ IH]; [reflexivity|].
  destruct e; [discriminate|]. exact IH.
Qed.

Lemma serial_nil : serial [].
Proof. reflexivity. Qed.

Lemma serial_app t1 t2 : serial t1 -> serial t2 -> serial (t1 ++ t2).
Proof. unfold serial. intros H1 H2. now rewrite scan_app, H1. Qed.

Lemma serial_quiet tr : all_quiet tr -> serial tr.
Proof. apply scan_quiet. Qed.

Lemma serial_invocation h objs tr :
  all_quiet tr -> serial (Ev (EEnter h objs) :: tr ++ [Ev (ELeave h)]).
Proof. intros Hq. unfold serial. cbn. now rewrite scan_app, scan_quiet. Qed.

Lemma all_quiet_app t1 t2 : all_quiet t1 -> all_quiet t2 -> all_quiet (t1 ++ t2).
Proof. apply Forall_app_2. Qed.

#[local] Hint Resolve serial_nil serial_app : runs.
#[local] Hint Constructors Forall : runs.
#[local] Hint Resolve all_quiet_app : runs.

Section Serial.
Context {E : Env}.
Implicit Types op : t E.

Abbreviation qext := (extends (E := E) all_quiet).
Abbreviation sext := (extends (E := E) serial).

Lemma qext_refl op : qext op op.
Proof. apply extends_refl. constructor. Qed.

Lemma qext_trans op1 op2 op3 : qext op1 op2 -> qext op2 op3 -> qext op1 op3.
Proof. apply extends_trans, all_quiet_app. Qed.

Lemma qext_set m s op : qext op (setState m s op).
Proof. eapply extends_by; [reflexivity|]. now repeat constructor. Qed.

Lemma sext_refl op : sext op op.
Proof. apply extends_refl, serial_nil. Qed.

Lemma sext_trans op1 op2 op3 : sext op1 op2 -> sext op2 op3 -> sext op1 op3.
Proof. apply extends_trans, serial_app. Qed.

Lemma sext_quiet op op' : qext op op' -> sext op op'.
Proof. intros (tr & Htr & Hq). exists tr. split; [exact Htr | now apply serial_quiet]. Qed.

Lemma wake_up_quiet op :
  qext op (wake_up op) /\
  _bProcessing (wake_up op) = _bProcessing op /\
  _pFlowController (wake_up op) = _pFlowController op.
Proof.
  unfold wake_up. destruct (_ || _).
  - split; [apply qext_set | now split].
  - split; [apply qext_refl | now split].
Qed.

(** While a dispatch is under way, a call other than check() returns
    without invoking a hook or querying the flow controller, and the
    dispatch is still under way afterwards. *)
Lemma nested_call_quiet fuel c op :
  is_check c = false -> busy op ->
  post (PiiSimpleProcessor.perform fuel c op) (fun op' => busy op' /\ qext op op').
Proof.
  intros Hc [Hflag [fc Hfc]].
  destruct fuel as [|fuel]; [exact I|]. cbn [PiiSimpleProcessor.perform].
  destruct c; cbn [perform_call]; try discriminate Hc.
  - unfold tryToReceive, admission.
    destruct (wake_up_quiet op) as (Hw & Hwp & Hwf).
    destruct (_bReset op); cbn [negb].
    + cbv zeta. destruct (inputs (wake_up op) !! sender) as [pInput|]; [|exact I].
      destruct (canReceive pInput); cbn.
      * rewrite Hwp, Hflag. cbn. split; [|exact Hw].
        split; cbn; [congruence | rewrite Hwf, Hfc; eauto].
      * split; [|exact Hw]. split; [congruence | rewrite Hwf, Hfc; eauto].
    + cbn. split; [split; eauto | apply qext_refl].
  - unfold reconfigure. rewrite Hfc. split; [split; eauto | apply qext_refl].
  - unfold start. destruct (bool_decide (state op = Pausing)).
    + split; [split; eauto | apply qext_refl].
    + destruct (bool_decide (state op = Paused)).
      * rewrite Hfc. split; [split; eauto | apply qext_refl].
      * split; [split; cbn; eauto | apply qext_set].
  - split; [split; cbn; eauto|].
    eapply extends_by; [reflexivity | now repeat constructor].
  - unfold pause, stop_to. destruct (bool_decide (state op = Running)).
    + rewrite Hfc. split; [split; cbn; eauto | apply qext_set].
    + split; [split; eauto | apply qext_refl].
  - unfold stop, stop_to. destruct (bool_decide (state op = Running)).
    + rewrite Hfc. split; [split; cbn; eauto | apply qext_set].
    + split; [split; eauto | apply qext_refl].
Qed.

Section Methods.
Variable perform : Call -> t E -> Result (t E).
Hypothesis perform_nested : forall c op,
  is_check c = false -> busy op ->
  post (perform c op) (fun op' => busy op' /\ qext op op').
Hypothesis no_check : never_checks E.

Lemma run_calls_quiet cs :
  forallb (fun c => negb (is_check c)) cs = true ->
  forall op, busy op ->
  post (run_calls perform cs op) (fun op' => busy op' /\ qext op op').
Proof.
  induction cs as [|c cs IH]; intros Hcs op Hbusy; cbn [run_calls].
  - apply post_ret. split; [exact Hbusy | apply qext_refl].
  - cbn in Hcs. apply andb_prop in Hcs as [Hc Hcs].
    apply negb_true_iff in Hc.
    eapply post_bind; [now apply perform_nested|]. intros op1 [Hb1 H1].
    eapply post_weaken; [now apply IH|]. intros op2 [Hb2 H2].
    split; [exact Hb2 | now apply qext_trans with op1].
Qed.

Lemma invoke_serial h op :
  busy op ->
  post (invoke perform h op) (fun r => busy r.2 /\ sext op r.2).
Proof.
  intros Hbusy. unfold invoke. cbv zeta.
  eapply post_bind; [apply run_calls_quiet; [apply no_check | exact Hbusy]|].
  intros op1 [Hb1 (tr & Htr & Hq)]. apply post_ret. cbn [snd].
  split; [exact Hb1|].
  exists (Ev (EEnter h (map firstObject (inputs op))) :: tr ++ [Ev (ELeave h)]).
  split; [|now apply serial_invocation].
  cbn. rewrite Htr. cbn. now rewrite <- !app_assoc.
Qed.

Lemma invoke_all_serial hs :
  forall op, busy op ->
  post (invoke_all perform hs op) (fun r => busy r.2 /\ sext op r.2).
Proof.
  induction hs as [|h hs IH]; intros op Hbusy; cbn [invoke_all].
  - apply post_ret. split; [exact Hbusy | apply sext_refl].
  - eapply post_bind; [now apply invoke_serial|].
    intros [[code|] op1] [Hb1 H1]; cbn [snd] in *.
    + now apply post_ret.
    + eapply post_weaken; [now apply IH|]. intros r [Hb2 H2].
      split; [exact Hb2 | now apply sext_trans with op1].
Qed.

Lemma dispatch_loop_serial n :
  forall op, post (dispatch_loop perform n op) (fun r => sext op r.2).
Proof.
  induction n as [|n IH]; intros op; cbn [dispatch_loop]; [exact I|].
  destruct (_pFlowController op) as [fc|]; [|exact I].
  destruct (prepareProcess E fc (inputs op)) as [[prepared fc'] ins].
  set (op1 := log (Ev EPrepare) (with_inputs ins (with_flowController fc' op))).
  assert (sext op op1) as H1 by (eapply extends_by; reflexivity).
  destruct prepared as [verdict|code]; [|now apply post_ret].
  assert (post
            ('(ex, op2) ← invoke_all perform (sendSyncEvents :: dispatch verdict)
                             (with_bProcessing true op1);
             match ex with
             | Some code => mret (Some code, op2)
             | None =>
               if _bReset (with_bProcessing false op2)
               then dispatch_loop perform n (with_bProcessing false op2)
               else mret (None, with_bProcessing false op2)
             end)
            (fun r => sext op r.2)) as Hgo.
  { eapply post_bind; [apply invoke_all_serial; split; cbn; eauto|].
    intros [[code|] op2] [_ H2]; cbn [snd] in H2.
    - apply post_ret. cbn [snd]. eapply sext_trans; [exact H1|exact H2].
    - assert (sext op (with_bProcessing false op2)) as H3
        by (eapply sext_trans; [exact H1|exact H2]).
      destruct (_bReset _).
      + eapply post_weaken; [apply IH|]. intros r. now apply sext_trans.
      + now apply post_ret. }
  destruct verdict; try exact Hgo. now apply post_ret.
Qed.

Lemma catch_serial code op : sext op (catch_execution code op).
Proof.
  unfold catch_execution. destruct (_ && _).
  - eapply extends_by; reflexivity.
  - destruct (bool_decide (code = PiiExecutionException.Error)).
    + eapply extends_by with (tr := [Ev EErrorOccured; SetBy MTryToReceive Stopped]);
        [|reflexivity].
      cbn. now rewrite <- app_assoc.
    + eapply extends_by; reflexivity.
Qed.

Lemma tryToReceive_serial n sender object op :
  post (tryToReceive perform n sender object op) (fun r => sext op r.2).
Proof.
  unfold tryToReceive, admission.
  destruct (_bReset op); cbn [negb]; [|apply post_ret, sext_refl].
  cbv zeta. destruct (wake_up_quiet op) as (Hw%sext_quiet & _).
  destruct (inputs (wake_up op) !! sender) as [pInput|]; [|exact I].
  destruct (canReceive pInput); cbn; [|exact Hw].
  destruct (_bProcessing (wake_up op)); [exact Hw|].
  eapply post_bind; [apply dispatch_loop_serial|].
  intros [[code|] op1] H1; cbn [snd] in H1; apply post_ret; cbn [snd].
  - eapply sext_trans; [exact Hw|]. eapply sext_trans; [exact H1|apply catch_serial].
  - eapply sext_trans; [exact Hw|exact H1].
Qed.

End Methods.

Lemma run_tryToReceive_serial fuel sender object op :
  never_checks E ->
  post (run_tryToReceive fuel sender object op) (fun r => sext op r.2).
Proof.
  intros Hnc. unfold run_tryToReceive.
  apply tryToReceive_serial; [|exact Hnc].
  intros c op0. apply nested_call_quiet.
Qed.

End Serial.

(** C6 (amended): no member function of the synchronous processor
    ever sets Starting or Interrupted. start() sets only Running,
    interrupt() only Stopped, tryToReceive() only Running, Paused or
    Stopped. stop() and pause() do set the transitional states: on a
    Running operation with a flow controller (connected inputs),
    stop() sets Stopping and pause() sets Pausing and both return; on
    one without a flow controller they set Stopped, respectively
    Paused, directly and then call the operation's hook. *)
Theorem C6_states_set_by_the_synchronous_processor (E : Env) :
  (forall fuel c (op : t E),
     post (PiiSimpleProcessor.perform fuel c op) (extends all_allowed op)) /\
  (forall m, allowed (SetBy m Starting) = false /\
             allowed (SetBy m Interrupted) = false) /\
  (forall s, allowed (SetBy MStart s) = true -> s = Running) /\
  (forall s, allowed (SetBy MInterrupt s) = true -> s = Stopped) /\
  (forall s, allowed (SetBy MTryToReceive s) = true ->
             s = Running \/ s = Paused \/ s = Stopped) /\
  (forall perform (op : t E),
     state op = Running -> is_Some (_pFlowController op) ->
     stop perform op = Returned (setState MStop Stopping op) /\
     pause perform op = Returned (setState MStop Pausing op)) /\
  (forall perform (op : t E),
     state op = Running -> _pFlowController op = None ->
     stop perform op
     = invoke_quietly perform operationStopped (setState MStop Stopped op) /\
     pause perform op
     = invoke_quietly perform operationPaused (setState MStop Paused op)).
Proof.
  split; [intros fuel c op; apply perform_allowed|].
  split; [intros []; split; reflexivity|].
  split; [intros s Hs; cbn in Hs; now apply bool_decide_eq_true_1 in Hs|].
  split; [intros s Hs; cbn in Hs; now apply bool_decide_eq_true_1 in Hs|].
  split; [intros s Hs; destruct s; cbn in Hs; auto; discriminate|].
  split; [apply stop_connected | apply stop_unconnected].
Qed.

Lemma C6_states_set_by_the_synchronous_processor_witness :
  state running = Running /\
  is_Some (_pFlowController running) /\
  stop (PiiSimpleProcessor.perform 1) running
  = Returned (setState MStop Stopping running).
Proof.
  pose proof (C6_states_set_by_the_synchronous_processor plain)
    as (_ & _ & _ & _ & _ & Hstop & _).
  assert (is_Some (_pFlowController running)) as Hfc by (exists tt; reflexivity).
  exact (conj eq_refl (conj Hfc (proj1 (Hstop (PiiSimpleProcessor.perform 1) running
                                          eq_refl Hfc)))).
Defined.

(** C6 (counterexample): on an armed and started synchronous
    processor whose operation has a connected input, stop() sets the
    state to Stopping and pause() sets it to Pausing. *)
Lemma C6_stop_and_pause_set_transitional_states :
  armed_started plain tt 4 = Returned running /\
  (op ← run_stop 1 running; mret (state op, trace op))
  = Returned (Stopping, [SetBy MStart Running; SetBy MStop Stopping]) /\
  (op ← run_pause 1 running; mret (state op, trace op))
  = Returned (Pausing, [SetBy MStart Running; SetBy MStop Pausing]).
Proof. repeat split. Qed.

Lemma plain_never_checks : never_checks plain.
Proof. intros h st ins. reflexivity. Qed.

Lemma feeds_itself_never_checks : never_checks feeds_itself.
Proof.
  intros h st ins. destruct h; try reflexivity.
  destruct ins as [|s [|]]; try reflexivity.
  cbn. now destruct (bool_decide _).
Qed.

(** If a hook calls check(), the flag is cleared and an object
    delivered after it is processed inside the running process(). *)
Lemma check_inside_process_clears_the_guard :
  one_delivery rechecks_itself tt 4 = Returned (true, [[Some A]; [Some B]], None).
Proof. reflexivity. Qed.

(** C1 (amended): while the _bProcessing flag is set, a tryToReceive
    call on the same processor returns without querying the flow
    controller and without invoking a hook: it appends the object to
    the socket's queue and returns true if the processor is armed and
    the socket can receive, returns false without enqueuing if the
    socket cannot receive, and returns true without enqueuing if the
    processor is no longer armed. Hence, as long as no hook calls
    check(), the hook invocations made by a tryToReceive call never
    overlap and the flow controller is only queried between them, calls
    made from inside the hooks included. In particular, A then B
    delivered one after the other to an armed, started operation with
    one input give exactly two process() invocations, A then B, not
    nested; the same holds when B is delivered from inside the
    process() invocation that handles A. *)
Theorem C1_process_invocations_do_not_overlap :
  (forall (E : Env) perform n sender object (op : t E) pInput,
     _bProcessing op = true -> inputs op !! sender = Some pInput ->
     tryToReceive perform n sender object op
     = Returned
         (if _bReset op then
            if canReceive pInput then
              (true, with_inputs (<[sender := receive object pInput]> (inputs op))
                                 (wake_up op))
            else (false, wake_up op)
          else (true, op)) /\
     extends all_quiet op (wake_up op)) /\
  (forall (E : Env), never_checks E ->
     forall fuel sender object (op : t E),
       post (run_tryToReceive fuel sender object op)
            (fun r => extends serial op r.2)) /\
  (forall k, two_deliveries plain tt (2 + k)
             = Returned (true, true, [[Some A]; [Some B]], Some false)) /\
  (forall k, one_delivery feeds_itself tt (3 + k)
             = Returned (true, [[Some A]; [Some B]], Some false)).
Proof.
  split; [|split; [|split]].
  - intros E perform n sender object op pInput Hflag Hin.
    destruct (wake_up_quiet op) as (Hw & Hwp & _). split; [|exact Hw].
    unfold tryToReceive.
    destruct (_bReset op) eqn:Hon;
      [|now rewrite SimpleAdmission.admission_unarmed].
    destruct (canReceive pInput) eqn:Hcan.
    + rewrite (SimpleAdmission.admission_accepts _ _ _ pInput) by assumption.
      cbn. now rewrite Hwp, Hflag.
    + now rewrite (SimpleAdmission.admission_full _ _ _ pInput).
  - intros E Hnc fuel sender object op. now apply run_tryToReceive_serial.
  - intros k. reflexivity.
  - intros k. reflexivity.
Qed.

Lemma C1_process_invocations_do_not_overlap_witness :
  _bProcessing dispatching = true /\
  inputs dispatching !! 0%nat = Some (empty_socket 2) /\
  never_checks plain /\
  tryToReceive (PiiSimpleProcessor.perform 3) 3 0 B dispatching
  = Returned (true, with_inputs [receive B (empty_socket 2)] dispatching) /\
  post (run_tryToReceive 3 0 A running) (fun r => extends serial running r.2).
Proof.
  pose proof C1_process_invocations_do_not_overlap as (Hguard & Hserial & _).
  destruct (Hguard plain (PiiSimpleProcessor.perform 3) 3%nat 0%nat B dispatching
              (empty_socket 2) eq_refl eq_refl) as (Hrun & _).
  exact (conj eq_refl (conj eq_refl (conj plain_never_checks
          (conj Hrun (Hserial plain plain_never_checks 3%nat 0%nat A running))))).
Defined.

(** C1 (counterexample): a dispatch is under way (the flag is set) on
    an armed processor whose input queue is full; a tryToReceive call
    made now returns false and does not enqueue the object. *)
Lemma C1_reentrant_call_rejected_when_full :
  _bProcessing dispatching_full = true /\
  _bReset dispatching_full = true /\
  run_tryToReceive 3 0 B dispatching_full = Returned (false, dispatching_full) /\
  inputs dispatching_full = [full_socket] /\
  B ∉ queue full_socket.
Proof.
  repeat split. intros Hin. apply list_elem_of_In in Hin.
  destruct Hin as [Heq | []]. discriminate Heq.
Qed.

End SimpleRuns.

(** ** More on type IDs *)

Module TagFacts.
Import PiiVariant PiiVariantMore PiiYdin PiiYdinMore.

Lemma land_low_bits (t m : Z) :
  Z.land 31 m = m -> Z.land t m = Z.land (t mod 32) m.
Proof.
  intros Hm. change 32 with (2 ^ 5). rewrite <- Z.land_ones by lia.
  change (Z.ones 5) with 31. now rewrite <- Z.land_assoc, Hm.
Qed.

Lemma predicates_low_bits (t : Z) :
  isInteger t = isInteger (t mod 32) /\
  isFloat t = isFloat (t mod 32) /\
  isUnsigned t = isUnsigned (t mod 32).
Proof.
  unfold isInteger, isFloat, isUnsigned.
  now rewrite (land_low_bits t 0x10), (land_low_bits t 0x18) by reflexivity.
Qed.

(** X1: the three kind predicates look at the low five bits only, so a
    type ID placed at [base + p] in a block that starts at a multiple
    of 32 is an integer, float or unsigned ID exactly when the
    primitive ID [p] is. *)
Theorem kind_predicates_follow_the_primitive_id (base p : Z) :
  base mod 32 = 0 ->
  isInteger (base + p) = isInteger p /\
  isFloat (base + p) = isFloat p /\
  isUnsigned (base + p) = isUnsigned p.
Proof.
  intros Hbase.
  destruct (predicates_low_bits (base + p)) as (Hi & Hf & Hu).
  destruct (predicates_low_bits p) as (Hi' & Hf' & Hu').
  assert ((base + p) mod 32 = p mod 32) as Hmod.
  { rewrite Z.add_mod, Hbase by lia. cbn [Z.add]. apply Z.mod_mod. lia. }
  rewrite Hmod in Hi, Hf, Hu. repeat split; congruence.
Qed.

Lemma kind_predicates_follow_the_primitive_id_witness :
  0x40 mod 32 = 0 /\
  isFloat (0x40 + FloatType) = isFloat FloatType /\
  isUnsigned (0x40 + FloatType) = isUnsigned FloatType.
Proof.
  destruct (kind_predicates_follow_the_primitive_id 0x40 FloatType eq_refl)
    as (_ & Hf & Hu).
  exact (conj eq_refl (conj Hf Hu)).
Defined.

Lemma land_through (t a b : Z) :
  Z.land a b = b -> Z.land t b = Z.land (Z.land t a) b.
Proof. intros Hab. now rewrite <- Z.land_assoc, Hab. Qed.

(** X2: on every type ID the kinds exclude each other: an unsigned ID
    is an integer ID and not a float ID, and a float ID is neither an
    integer nor an unsigned ID. On the twelve primitive IDs,
    isInteger holds for the four signed and the four unsigned integer
    types, isUnsigned for the four unsigned ones, isFloat for float
    and double, and none of the three for bool and void*. *)
Theorem kinds_exclude_each_other :
  (forall t, isUnsigned t = true -> isInteger t = true /\ isFloat t = false) /\
  (forall t, isFloat t = true -> isInteger t = false /\ isUnsigned t = false) /\
  (forall T : CType,
     isInteger (typeId T)
     = match T with
       | c_float | c_double | c_bool | c_voidptr => false
       | _ => true
       end /\
     isUnsigned (typeId T)
     = match T with
       | c_uchar | c_ushort | c_uint | c_quint64 => true
       | _ => false
       end /\
     isFloat (typeId T)
     = match T with
       | c_float | c_double => true
       | _ => false
       end).
Proof.
  split; [|split].
  - intros t Hu. unfold isUnsigned, isInteger, isFloat in *.
    apply Z.eqb_eq in Hu. rewrite Hu.
    rewrite (land_through t 0x18 0x10), Hu by reflexivity. now split.
  - intros t Hf. unfold isUnsigned, isInteger, isFloat in *.
    apply Z.eqb_eq in Hf. rewrite Hf.
    rewrite (land_through t 0x18 0x10), Hf by reflexivity. now split.
  - intros []; repeat split.
Qed.

Lemma kinds_exclude_each_other_witness :
  isUnsigned UnsignedShortMatrixType = true /\
  isInteger UnsignedShortMatrixType = true /\
  isFloat UnsignedShortMatrixType = false.
Proof.
  destruct kinds_exclude_each_other as (Hu & _).
  exact (conj eq_refl (Hu UnsignedShortMatrixType eq_refl)).
Defined.

(** X3: no 32-bit type ID belongs to two of the categories primitive,
    control and matrix; isNonControlType is the complement of
    isControlType; and InvalidType is a 32-bit ID that is not valid
    and belongs to none of the three. *)
Theorem categories_are_disjoint (t : Z) :
  is_tag t ->
  (isPrimitive t = true -> isControlType_tag t = false /\ isMatrixType_tag t = false) /\
  (isControlType_tag t = true -> isPrimitive t = false /\ isMatrixType_tag t = false) /\
  (isMatrixType_tag t = true -> isPrimitive t = false /\ isControlType_tag t = false) /\
  isNonControlType (CInt.to_int t) = negb (isControlType_tag t) /\
  (t = InvalidType ->
   isValid t = false /\ isPrimitive t = false /\
   isControlType_tag t = false /\ isMatrixType_tag t = false).
Proof.
  intros Ht.
  pose proof (TypeCategories.isPrimitive_range t) as Hp.
  pose proof (TypeCategories.isControlType_range t Ht) as Hc.
  pose proof (TypeCategories.isMatrixType_range t Ht) as Hm.
  assert (forall b (P : Prop), (b = true <-> P) -> ~ P -> b = false) as Hoff
    by (intros [] P HP HnP; [exfalso; apply HnP, HP|]; reflexivity).
  split; [|split; [|split; [|split]]].
  - intros H%Hp. split; [apply (Hoff _ _ Hc) | apply (Hoff _ _ Hm)]; lia.
  - intros H%Hc. split; [apply (Hoff _ _ Hp) | apply (Hoff _ _ Hm)]; lia.
  - intros H%Hm. split; [apply (Hoff _ _ Hp) | apply (Hoff _ _ Hc)]; lia.
  - reflexivity.
  - intros Hinv. unfold InvalidType in Hinv.
    split; [now rewrite Hinv|].
    split; [|split]; [apply (Hoff _ _ Hp) | apply (Hoff _ _ Hc) | apply (Hoff _ _ Hm)];
      lia.
Qed.

Lemma categories_are_disjoint_witness :
  is_tag ResumeTagType /\
  isControlType_tag ResumeTagType = true /\
  isPrimitive ResumeTagType = false /\ isMatrixType_tag ResumeTagType = false.
Proof.
  assert (is_tag ResumeTagType) as Ht by (unfold is_tag; cbv; split; congruence).
  destruct (categories_are_disjoint ResumeTagType Ht) as (_ & Hc & _).
  exact (conj Ht (conj eq_refl (Hc eq_refl))).
Defined.

End TagFacts.

(** ** The type IDs the headers define *)

Module DefinedIds.
Import PiiVariant PiiVariantMore PiiYdin PiiYdinMore.

Lemma primitive_case_inv (type : Z) (T : CType) :
  PII_PRIMITIVE_CASES type = Some T -> type = typeId T /\ T <> c_voidptr.
Proof.
  unfold PII_PRIMITIVE_CASES.
  repeat match goal with
         | |- context [?a =? ?b] =>
           destruct (Z.eqb_spec a b) as [-> | _]; cbv beta iota;
           [intros [= <-]; split; [reflexivity | discriminate]|]
         end.
  discriminate.
Qed.

Lemma matrix_case_inv (type : Z) (T : CType) :
  PII_PRIMITIVE_MATRIX_CASES type = Some T -> type = 0x40 + typeId T /\ T <> c_voidptr.
Proof.
  unfold PII_PRIMITIVE_MATRIX_CASES.
  repeat match goal with
         | |- context [?a =? ?b] =>
           destruct (Z.eqb_spec a b) as [-> | _]; cbv beta iota;
           [intros [= <-]; split; [reflexivity | discriminate]|]
         end.
  discriminate.
Qed.

(** X4: every enumerator of ControlTypeId is a control type and
    every enumerator of MatrixTypeId a matrix type for the
    predicates, and neither is primitive. The case macros take a
    primitive ID to the type it was declared for, a matrix ID to the
    element type whose primitive ID is the matrix ID minus 0x40, and
    have no label for void*; so the kind predicates applied to the ID
    of a matrix of primitives give the kind of its elements. *)
Theorem defined_ids_are_recognised :
  Forall (fun id => isControlType_tag id = true /\ isMatrixType_tag id = false /\
                    isPrimitive id = false) ControlTypeIds /\
  Forall (fun id => isMatrixType_tag id = true /\ isControlType_tag id = false /\
                    isPrimitive id = false) MatrixTypeIds /\
  (forall T : CType, isPrimitive (typeId T) = true /\ isValid (typeId T) = true) /\
  (forall type T,
     PII_PRIMITIVE_CASES type = Some T <-> type = typeId T /\ T <> c_voidptr) /\
  (forall type T,
     PII_PRIMITIVE_MATRIX_CASES type = Some T
     <-> type = 0x40 + typeId T /\ T <> c_voidptr) /\
  (forall type T,
     PII_PRIMITIVE_MATRIX_CASES type = Some T ->
     isMatrixType_tag type = true /\
     isInteger type = isInteger (typeId T) /\
     isFloat type = isFloat (typeId T) /\
     isUnsigned type = isUnsigned (typeId T)).
Proof.
  split; [repeat constructor|].
  split; [repeat constructor|].
  split; [intros []; split; reflexivity|].
  split; [|split].
  - intros type T. split; [apply primitive_case_inv|].
    intros [-> HT]. destruct T; try reflexivity. now destruct HT.
  - intros type T. split; [apply matrix_case_inv|].
    intros [-> HT]. destruct T; try reflexivity. now destruct HT.
  - intros type T [-> HT]%matrix_case_inv.
    destruct T; repeat split; now destruct HT.
Qed.

Lemma defined_ids_are_recognised_witness :
  PII_PRIMITIVE_MATRIX_CASES DoubleMatrixType = Some c_double /\
  isMatrixType_tag DoubleMatrixType = true /\
  isFloat DoubleMatrixType = isFloat DoubleType.
Proof.
  destruct defined_ids_are_recognised as (_ & _ & _ & _ & _ & Hkind).
  destruct (Hkind DoubleMatrixType c_double eq_refl) as (Hm & _ & Hf & _).
  exact (conj eq_refl (conj Hm Hf)).
Defined.

Lemma toKey_inj_witness :
  is_tag IntType /\ is_tag DoubleType /\
  toKey IntType DoubleType = toKey IntType DoubleType /\
  toKey IntType DoubleType <> toKey DoubleType IntType.
Proof.
  assert (is_tag IntType) as Hi by (unfold is_tag; cbv; split; congruence).
  assert (is_tag DoubleType) as Hd by (unfold is_tag; cbv; split; congruence).
  refine (conj Hi (conj Hd (conj eq_refl _))).
  intros Heq.
  destruct (Conversion.toKey_inj IntType DoubleType DoubleType IntType Hi Hd Hd Hi Heq)
    as [Hne _].
  discriminate Hne.
Defined.

End DefinedIds.

(** ** Primitive values: saving, custom IDs, conversion *)

Module PrimitiveValues.
Import PiiVariant PiiVariantMore PiiYdin PiiYdinMore.

(** X6: on an output archive, serialize writes for a variant built
    from a primitive value the union member that the constructor
    assigned, which holds that value; the exception is void*, for
    which nothing but the ID is written. The [case InvalidType] label
    is never reached, and a primitive value stored under a
    caller-chosen ID above LastPrimitiveType is not written either,
    because such a variant has no function table. *)
Theorem saved_member_is_the_constructed_one :
  (forall T v uninit,
     in_range (PREFIX T) v -> T <> c_voidptr ->
     saved_payload (PiiVariant T v uninit) = PrimitiveMember (PREFIX T) /\
     read_member (PREFIX T) (_value (PiiVariant T v uninit)) = v) /\
  (forall v uninit, saved_payload (PiiVariant c_voidptr v uninit) = Nothing) /\
  (forall v, _uiType v = InvalidType -> saved_payload v = Nothing) /\
  (forall T value typeId uninit,
     LastPrimitiveType < typeId ->
     saved_payload (PiiVariant_with_id T value typeId uninit) = Nothing).
Proof.
  split; [|split; [|split]].
  - intros T v uninit Hv HT. split.
    + destruct T; try reflexivity. now destruct HT.
    + now apply PrimitiveVariants.read_write_member.
  - reflexivity.
  - intros v Hinv. unfold saved_payload. now rewrite Hinv.
  - intros T value typeId uninit Hid. unfold saved_payload, PiiVariant_with_id.
    cbn [_uiType _pVTable].
    apply Z.leb_gt in Hid. rewrite Hid.
    now rewrite andb_false_r.
Qed.

Lemma saved_member_is_the_constructed_one_witness :
  in_range (PREFIX c_uchar) 200 /\
  saved_payload (PiiVariant c_uchar 200 0) = PrimitiveMember ucValue /\
  LastPrimitiveType < SynchronizationTagType /\
  saved_payload (createStartTag 0) = Nothing.
Proof.
  destruct saved_member_is_the_constructed_one as (Hsave & _ & _ & Htag).
  assert (in_range (PREFIX c_uchar) 200) as Hr by (cbv; split; congruence).
  assert (LastPrimitiveType < SynchronizationTagType) as Hid by reflexivity.
  assert (c_uchar <> c_voidptr) as Hne by discriminate.
  exact (conj Hr (conj (proj1 (Hsave c_uchar 200 0 Hr Hne))
                       (conj Hid (Htag c_int 1 SynchronizationTagType 0 Hid)))).
Defined.

(** X7: a primitive value stored under a caller-chosen type ID is
    read back unchanged by valueAs, type() is the chosen ID, and the
    variant has no function table. The start, end, stop and pause
    tags are such variants: their IDs are control types, and the
    values of a start tag and an end tag are +1 and -1. *)
Theorem custom_id_roundtrip_and_tags :
  (forall T v typeId uninit,
     in_range (PREFIX T) v ->
     valueAs T (PiiVariant_with_id T v typeId uninit) = v /\
     type (PiiVariant_with_id T v typeId uninit) = typeId /\
     _pVTable (PiiVariant_with_id T v typeId uninit) = None) /\
  (forall u,
     Forall (fun tag => isControlType_tag (type tag) = true /\
                        isNonControlType (CInt.to_int (type tag)) = false /\
                        isPrimitive (type tag) = false)
            [createStartTag u; createEndTag u; createStopTag u; createPauseTag u]) /\
  (forall u u',
     valueAs c_int (createStartTag u) = 1 /\
     valueAs c_int (createEndTag u') = -1 /\
     type (createStartTag u) = type (createEndTag u') /\
     valueAs c_int (createStopTag u) = 0 /\
     valueAs c_int (createPauseTag u) = 0).
Proof.
  split; [|split].
  - intros T v typeId uninit Hv. split; [|split; reflexivity].
    now apply PrimitiveVariants.read_write_member.
  - intros u. repeat constructor.
  - intros u u'.
    assert (forall v w, - 2 ^ 31 <= v < 2 ^ 31 ->
              read_member iValue (write_member iValue v w) = v) as Hrw
      by (intros v w Hv; now apply PrimitiveVariants.read_write_member).
    unfold valueAs, createStartTag, createEndTag, createStopTag, createPauseTag,
      PiiVariant_with_id. cbn [_value PREFIX].
    rewrite !Hrw by lia. repeat split.
Qed.

Lemma custom_id_roundtrip_and_tags_witness :
  in_range (PREFIX c_double) 0x4000000000000000 /\
  valueAs c_double (PiiVariant_with_id c_double 0x4000000000000000 0x31415927 7)
  = 0x4000000000000000.
Proof.
  destruct custom_id_roundtrip_and_tags as (Hround & _).
  assert (in_range (PREFIX c_double) 0x4000000000000000) as Hr
    by (cbv; split; congruence).
  exact (conj Hr (proj1 (Hround c_double _ 0x31415927 7 Hr))).
Defined.

End PrimitiveValues.

(** ** Conversions between integral types *)

Module IntegralConversions.
Import PiiVariant PiiVariantMore PiiYdin PiiYdinMore.

Lemma typeId_inj (A B : CType) : typeId A = typeId B -> A = B.
Proof. destruct A, B; (reflexivity || discriminate). Qed.

Lemma width_positive (m : Member) : 0 < member_width m.
Proof. now destruct m. Qed.

Lemma convert_own_type (T : CType) (v : Z) :
  integral T = true -> in_range (PREFIX T) v -> convert_integral T v = v.
Proof.
  unfold convert_integral, in_range, CInt.signed_of, CInt.unsigned_of.
  pose proof (width_positive (PREFIX T)) as Hw.
  destruct (member_repr (PREFIX T)); intros _ Hv.
  - now apply PrimitiveVariants.signed_of_mod.
  - apply Z.mod_small. lia.
  - now destruct Hv as [-> | ->].
Qed.

Lemma mod_of_wider (wF wT x : Z) :
  0 < wF <= wT -> (x mod 2 ^ wT) mod 2 ^ wF = x mod 2 ^ wF.
Proof.
  intros Hw. apply Z.mod_mod_divide.
  exists (2 ^ (wT - wF)). rewrite <- Z.pow_add_r by lia. f_equal. lia.
Qed.

Lemma signed_of_congruent (wF wT x : Z) :
  0 < wF <= wT -> CInt.signed_of wT x mod 2 ^ wF = x mod 2 ^ wF.
Proof.
  intros Hw. unfold CInt.signed_of.
  destruct (_ <? _); [now apply mod_of_wider|].
  replace (x mod 2 ^ wT - 2 ^ wT)
    with (x mod 2 ^ wT + (- 2 ^ (wT - wF)) * 2 ^ wF).
  - rewrite Z_mod_plus_full. now apply mod_of_wider.
  - rewrite Z.mul_opp_l, <- Z.pow_add_r by lia.
    replace (wT - wF + wF) with wT by lia. lia.
Qed.

Lemma convert_congruent (To : CType) (x y : Z) :
  member_repr (PREFIX To) <> Boolean ->
  x mod 2 ^ member_width (PREFIX To) = y mod 2 ^ member_width (PREFIX To) ->
  convert_integral To x = convert_integral To y.
Proof.
  unfold convert_integral, CInt.signed_of, CInt.unsigned_of.
  intros Hrepr Hmod. destruct (member_repr (PREFIX To)); [| |easy]; now rewrite Hmod.
Qed.

Lemma convert_keeps_low_bits (From To : CType) (v : Z) :
  member_repr (PREFIX To) <> Boolean ->
  member_width (PREFIX From) <= member_width (PREFIX To) ->
  convert_integral To v mod 2 ^ member_width (PREFIX From)
  = v mod 2 ^ member_width (PREFIX From).
Proof.
  intros Hrepr Hw. pose proof (width_positive (PREFIX From)) as HwF.
  unfold convert_integral, CInt.unsigned_of.
  destruct (member_repr (PREFIX To)); [| |easy].
  - apply signed_of_congruent. lia.
  - apply mod_of_wider. lia.
Qed.

(** X8: when defaultConverter<From,To> is the converter registered
    for two different integral types, convertTo<To> on a variant
    built from a From value succeeds and returns that value
    converted to To; the result is the value itself whenever To can
    hold it. *)
Theorem convertTo_through_defaultConverter
    (From To : CType) (convert : ConverterFunction Z) (v uninit : Z)
    (converterMap : gmap Z (ConverterFunction Z)) :
From <> To ->
in_range (PREFIX From) v ->
defaultConverter From To = Some convert ->
converterMap !! toKey (typeId From) (typeId To) = Some convert ->
convertTo Z 0 (typeId To) (valueAs To) converterMap (PiiVariant From v uninit)
= (convert_integral To v, true) /\
(in_range (PREFIX To) v ->
 convertTo Z 0 (typeId To) (valueAs To) converterMap (PiiVariant From v uninit)
 = (v, true)).
Proof.
  intros Hne Hv Hdef Hreg.
  unfold defaultConverter in Hdef.
  destruct (integral From && integral To) eqn:Hint; [|discriminate].
  injection Hdef as <-. apply andb_prop in Hint as [HF HT].
  assert (convertTo Z 0 (typeId To) (valueAs To) converterMap (PiiVariant From v uninit)
          = (convert_integral To v, true)) as Hrun.
  { unfold convertTo, convertTo_ref, converter. cbn [_uiType PiiVariant.PiiVariant].
    destruct (Z.eqb_spec (NAME From) (typeId To)) as [Heq | _];
      [now apply typeId_inj in Heq|].
    fold (typeId From). rewrite Hreg.
    unfold valueAs, PiiVariant.PiiVariant. cbn [_value].
    now rewrite PrimitiveVariants.read_write_member. }
  split; [exact Hrun|].
  intros HvT. now rewrite Hrun, convert_own_type.
Qed.

Lemma convertTo_through_defaultConverter_witness :
  c_int <> c_uchar /\
  in_range (PREFIX c_int) 300 /\
  convertTo Z 0 (typeId c_uchar) (valueAs c_uchar) (registry_of c_int c_uchar)
    (PiiVariant c_int 300 0)
  = (44, true).
Proof.
  assert (c_int <> c_uchar) as Hne by discriminate.
  assert (in_range (PREFIX c_int) 300) as Hv by (cbv; split; congruence).
  exact (conj Hne (conj Hv
          (proj1 (convertTo_through_defaultConverter c_int c_uchar _ 300 0
                    (registry_of c_int c_uchar) Hne Hv eq_refl eq_refl)))).
Defined.

(** X9: converting an integral value to an integral type that is at
    least as wide and back gives the value again, also across
    signedness (bool excepted as the intermediate type, unless the
    value is a bool); converting to bool and back to an integer type
    gives 1 for a non-zero value and 0 for zero. *)
Theorem integral_conversion_roundtrip (From To : CType) (v : Z) :
  integral From = true -> integral To = true ->
  in_range (PREFIX From) v ->
  (member_width (PREFIX From) <= member_width (PREFIX To) ->
   To <> c_bool \/ From = c_bool ->
   convert_integral From (convert_integral To v) = v) /\
  convert_integral From (convert_integral c_bool v) = (if v =? 0 then 0 else 1).
Proof.
  intros HF HT Hv. split.
  - intros Hw Hbool.
    assert (From = c_bool \/ From <> c_bool) as [-> | HFb]
      by (destruct From; ((left; reflexivity) || (right; discriminate))).
    + assert (convert_integral To v = v) as ->.
      { apply convert_own_type; [exact HT|].
        destruct Hv as [-> | ->]; destruct To; try discriminate HT;
          cbv; auto; split; congruence. }
      now apply convert_own_type.
    + destruct Hbool as [HTb | ?]; [|contradiction].
      assert (member_repr (PREFIX To) <> Boolean) as HrT by now destruct To.
      assert (member_repr (PREFIX From) <> Boolean) as HrF by now destruct From.
      rewrite (convert_congruent From _ v HrF).
      * now apply convert_own_type.
      * now apply convert_keeps_low_bits.
  - assert (forall b, b = 0 \/ b = 1 -> convert_integral From b = b) as Hsmall.
    { intros b Hb. apply convert_own_type; [exact HF|].
      destruct Hb as [-> | ->]; destruct From; try discriminate HF;
        cbv; auto; split; congruence. }
    unfold convert_integral at 2. cbn [PREFIX member_repr].
    destruct (v =? 0); apply Hsmall; auto.
Qed.

Lemma integral_conversion_roundtrip_witness :
  in_range (PREFIX c_int) (-1) /\
  convert_integral c_quint64 (-1) = 18446744073709551615 /\
  convert_integral c_int (convert_integral c_quint64 (-1)) = -1 /\
  convert_integral c_int (convert_integral c_bool (-1)) = 1.
Proof.
  assert (in_range (PREFIX c_int) (-1)) as Hv by (cbv; split; congruence).
  destruct (integral_conversion_roundtrip c_int c_quint64 (-1) eq_refl eq_refl Hv)
    as (Hround & Hbool).
  assert (member_width (PREFIX c_int) <= member_width (PREFIX c_quint64)) as Hw
    by (cbv; congruence).
  assert (c_quint64 <> c_bool \/ c_int = c_bool) as Hb by (left; discriminate).
  exact (conj Hv (conj eq_refl (conj (Hround Hw Hb) Hbool))).
Defined.

(** X10: the conversion functions of the Ydin header on a variant
    built from a value of an integral type: convertPrimitiveTo<T>,
    on a variant and on an input, and primitiveAs<T> on an input all
    return the value converted to T. For an object whose type has no
    case label (void*, InvalidType, a matrix, a control tag) and is
    not a string, convertPrimitiveTo<T> on a variant returns T(),
    that is 0, where the two functions that read an input throw. *)
Theorem ydin_primitive_conversions :
  (forall T Src v uninit,
     integral T = true -> integral Src = true -> in_range (PREFIX Src) v ->
     convertPrimitiveTo T (PiiVariant Src v uninit) = Value (convert_integral T v) /\
     convertPrimitiveTo_input T (PiiVariant Src v uninit) = Value (convert_integral T v) /\
     primitiveAs_input T (PiiVariant Src v uninit) = Value (convert_integral T v)) /\
  (forall T obj,
     integral T = true ->
     PII_PRIMITIVE_CASES (type obj) = None -> type obj <> QStringType ->
     convertPrimitiveTo T obj = Value 0 /\
     convertPrimitiveTo_input T obj = UnknownType /\
     primitiveAs_input T obj = UnknownType) /\
  PII_PRIMITIVE_CASES VoidPtrType = None /\
  PII_PRIMITIVE_CASES InvalidType = None /\
  Forall (fun id => PII_PRIMITIVE_CASES id = None) (ControlTypeIds ++ MatrixTypeIds).
Proof.
  split; [|split; [|repeat split; repeat constructor]].
  - intros T Src v uninit HT HS Hv.
    assert (PII_PRIMITIVE_CASES (type (PiiVariant Src v uninit)) = Some Src) as Hcase
      by (destruct Src; try reflexivity; discriminate HS).
    assert (cast_primitive T Src (PiiVariant Src v uninit)
            = Value (convert_integral T v)) as Hcast.
    { unfold cast_primitive, primitiveAs, valueAs. rewrite HS, HT. cbn [andb _value].
      unfold PiiVariant.PiiVariant. cbn [_value].
      now rewrite PrimitiveVariants.read_write_member. }
    unfold convertPrimitiveTo, convertPrimitiveTo_input, primitiveAs_input.
    rewrite Hcase, Hcast. repeat split.
    destruct (Z.eqb_spec (type (PiiVariant Src v uninit)) (typeId T)) as [Heq | _];
      [|reflexivity].
    apply typeId_inj in Heq. subst Src.
    unfold valueAs, PiiVariant.PiiVariant. cbn [_value].
    rewrite PrimitiveVariants.read_write_member by assumption.
    now rewrite convert_own_type.
  - intros T obj HT Hcase Hstr.
    unfold convertPrimitiveTo, convertPrimitiveTo_input, primitiveAs_input.
    rewrite Hcase, HT. apply Z.eqb_neq in Hstr. rewrite Hstr.
    repeat split.
    destruct (Z.eqb_spec (type obj) (typeId T)) as [Heq | _]; [|reflexivity].
    exfalso. rewrite Heq in Hcase.
    destruct T; discriminate.
Qed.

Lemma ydin_primitive_conversions_witness :
  in_range (PREFIX c_short) (-2) /\
  convertPrimitiveTo c_ushort (PiiVariant c_short (-2) 0) = Value 65534 /\
  convertPrimitiveTo c_int (PiiVariant c_voidptr 4096 0) = Value 0 /\
  convertPrimitiveTo_input c_int (PiiVariant c_voidptr 4096 0) = UnknownType.
Proof.
  destruct ydin_primitive_conversions as (Hconv & Hnone & _).
  assert (in_range (PREFIX c_short) (-2)) as Hv by (cbv; split; congruence).
  destruct (Hconv c_ushort c_short (-2) 0 eq_refl eq_refl Hv) as (H1 & _).
  assert (type (PiiVariant c_voidptr 4096 0) <> QStringType) as Hstr by discriminate.
  destruct (Hnone c_int (PiiVariant c_voidptr 4096 0) eq_refl eq_refl Hstr)
    as (H2 & H3 & _).
  exact (conj Hv (conj H1 (conj H2 H3))).
Defined.

End IntegralConversions.

(** ** The synchronous processor: the flags *)

Module SimpleFlags.
Import PiiFlowController Ydin PiiOperation PiiSimpleProcessor Runs RunsMore Scenario.
Import SimpleRuns.

Section Flags.
Context {E : Env}.
Implicit Types op : t E.

Lemma catch_clears_flag code op : _bProcessing (catch_execution code op) = false.
Proof.
  unfold catch_execution. destruct (_ && _); [reflexivity|].
  now destruct (bool_decide _).
Qed.

Lemma dispatch_loop_releases (perform : Call -> t E -> Result (t E)) n :
  forall op, _bProcessing op = false ->
  post (dispatch_loop perform n op) (fun r => r.1 = None -> _bProcessing r.2 = false).
Proof.
  induction n as [|n IH]; intros op Hflag; cbn [dispatch_loop]; [exact I|].
  destruct (_pFlowController op) as [fc|]; [|exact I].
  destruct (prepareProcess E fc (inputs op)) as [[prepared fc'] ins].
  destruct prepared as [verdict|code]; [|now apply post_ret].
  assert (forall hs op1,
            post
              ('(ex, op2) ← invoke_all perform hs op1;
               match ex with
               | Some code => mret (Some code, op2)
               | None =>
                 if _bReset (with_bProcessing false op2)
                 then dispatch_loop perform n (with_bProcessing false op2)
                 else mret (None, with_bProcessing false op2)
               end)
              (fun r => r.1 = None -> _bProcessing r.2 = false)) as Hgo.
  { intros hs op1. destruct (invoke_all perform hs op1) as [[[code|] op2]| |];
      cbn; try exact I; [discriminate|].
    destruct (_bReset op2); [now apply IH | now intros _]. }
  destruct verdict; try apply Hgo. apply post_ret. now intros _.
Qed.

(** X11: tryToReceive leaves the _bProcessing flag as it found it:
    a call that finds it clear returns with the flag clear, whether
    its dispatch loop ends normally or by an exception and whatever
    the hooks did; a call that finds it set returns with it set. *)
Theorem tryToReceive_restores_the_flag
    (perform : Call -> t E -> Result (t E)) (n sender : nat) (object : Obj) op :
  post (tryToReceive perform n sender object op)
       (fun r => _bProcessing r.2 = _bProcessing op).
Proof.
  unfold tryToReceive, admission.
  destruct (_bReset op); cbn [negb]; [|now apply post_ret].
  cbv zeta. destruct (wake_up_quiet op) as (_ & Hflag & _).
  destruct (inputs (wake_up op) !! sender) as [pInput|]; [|exact I].
  destruct (canReceive pInput); cbn; [|exact Hflag].
  destruct (_bProcessing (wake_up op)) eqn:Hw; [now rewrite <- Hflag|].
  rewrite <- Hflag.
  eapply post_bind; [now apply dispatch_loop_releases|].
  intros [[code|] op1] H1; apply post_ret; cbn [snd fst] in *.
  - apply catch_clears_flag.
  - now apply H1.
Qed.

Lemma processed_app t1 t2 : processed (t1 ++ t2) = processed t1 ++ processed t2.
Proof.
  induction t1 as [|e t1 IH]; [reflexivity|].
  destruct e as [[| [] | | |]|]; cbn; now rewrite ?IH.
Qed.

Lemma no_process_app t1 t2 : no_process t1 -> no_process t2 -> no_process (t1 ++ t2).
Proof. unfold no_process. intros H1 H2. now rewrite processed_app, H1, H2. Qed.

Lemma still_disarmed_refl op : _bReset op = false -> still_disarmed op op.
Proof. intros H. split; [exact H|]. now apply extends_refl. Qed.

Lemma still_disarmed_trans op1 op2 op3 :
  still_disarmed op1 op2 -> still_disarmed op2 op3 -> still_disarmed op1 op3.
Proof.
  intros [_ H1] [H H2]. split; [exact H|].
  eapply extends_trans; eauto using no_process_app.
Qed.

Lemma still_disarmed_by op op' tr :
  _bReset op' = false -> trace op' = trace op ++ tr -> no_process tr ->
  still_disarmed op op'.
Proof. intros H Htr Hq. split; [exact H | now exists tr]. Qed.

Section Methods.
Variable perform : Call -> t E -> Result (t E).
Hypothesis perform_disarmed : forall c op,
  is_check c = false -> _bReset op = false ->
  post (perform c op) (still_disarmed op).
Hypothesis no_check : never_checks E.

Lemma run_calls_disarmed cs :
  forallb (fun c => negb (is_check c)) cs = true ->
  forall op, _bReset op = false ->
  post (run_calls perform cs op) (still_disarmed op).
Proof.
  induction cs as [|c cs IH]; intros Hcs op Hoff; cbn [run_calls].
  - now apply post_ret, still_disarmed_refl.
  - cbn in Hcs. apply andb_prop in Hcs as [Hc Hcs]. apply negb_true_iff in Hc.
    eapply post_bind; [now apply perform_disarmed|]. intros op1 H1.
    eapply post_weaken; [apply IH; [exact Hcs | apply H1]|].
    intros op2. now apply still_disarmed_trans.
Qed.

Lemma invoke_disarmed h op :
  h <> processLocked -> _bReset op = false ->
  post (invoke perform h op) (fun r => still_disarmed op r.2).
Proof.
  intros Hh Hoff. unfold invoke. cbv zeta.
  eapply post_bind.
  - apply (run_calls_disarmed _ (no_check h (state op) (inputs op))
             (log (Ev (EEnter h (map firstObject (inputs op)))) op) Hoff).
  - intros op1 [Hoff1 (tr & Htr & Hq)]. apply post_ret. cbn [snd].
    eapply still_disarmed_by with
      (tr := Ev (EEnter h (map firstObject (inputs op))) :: tr ++ [Ev (ELeave h)]).
    + exact Hoff1.
    + cbn. rewrite Htr. cbn. now rewrite <- !app_assoc.
    + unfold no_process in *. cbn. rewrite processed_app, Hq.
      now destruct h.
Qed.

Lemma invoke_quietly_disarmed h op :
  h <> processLocked -> _bReset op = false ->
  post (invoke_quietly perform h op) (still_disarmed op).
Proof.
  intros Hh Hoff. unfold invoke_quietly.
  eapply post_bind; [now apply invoke_disarmed|].
  now intros [ex op1] H1.
Qed.

Lemma setState_disarmed m s op :
  _bReset op = false -> still_disarmed op (setState m s op).
Proof.
  intros Hoff. now eapply still_disarmed_by with (tr := [SetBy m s]).
Qed.

Lemma stop_to_disarmed finalState op :
  _bReset op = false -> post (stop_to perform finalState op) (still_disarmed op).
Proof.
  intros Hoff. unfold stop_to.
  destruct (bool_decide (state op = Running));
    [|now apply post_ret, still_disarmed_refl].
  destruct (_pFlowController op); [now apply post_ret, setState_disarmed|].
  cbv zeta.
  destruct (bool_decide (finalState = Paused));
    (eapply post_weaken;
     [apply invoke_quietly_disarmed; [discriminate | exact Hoff]|]);
    intros op1 H1;
    (eapply still_disarmed_trans; [now apply setState_disarmed | exact H1]).
Qed.

Lemma perform_call_disarmed n c op :
  is_check c = false -> _bReset op = false ->
  post (perform_call perform n c op) (still_disarmed op).
Proof.
  intros Hc Hoff.
  destruct c; cbn [perform_call]; try discriminate Hc.
  - unfold tryToReceive. rewrite SimpleAdmission.admission_unarmed by exact Hoff.
    cbn. now apply still_disarmed_refl.
  - unfold reconfigure.
    destruct (_pFlowController op); [now apply post_ret, still_disarmed_refl|].
    eapply post_bind; [apply invoke_disarmed; [discriminate | exact Hoff]|].
    intros [[code|] op1] H1; cbn [snd] in H1; apply post_ret; [|exact H1].
    eapply still_disarmed_trans; [exact H1|].
    eapply still_disarmed_by with (tr := [Ev EErrorOccured]);
      [apply H1 | reflexivity | reflexivity].
  - unfold start.
    destruct (bool_decide (state op = Pausing));
      [now apply post_ret, still_disarmed_refl|].
    destruct (bool_decide (state op = Paused));
      [|now apply post_ret, setState_disarmed].
    destruct (_pFlowController op); [now apply post_ret, still_disarmed_refl|].
    eapply post_weaken;
      [apply invoke_quietly_disarmed; [discriminate | exact Hoff]|].
    intros op1 H1.
    eapply still_disarmed_trans; [now apply setState_disarmed | exact H1].
  - apply post_ret.
    now eapply still_disarmed_by with (tr := [SetBy MInterrupt Stopped]).
  - now apply stop_to_disarmed.
  - now apply stop_to_disarmed.
Qed.

End Methods.

(** X12: a disarmed processor stays disarmed and never invokes
    process(): as long as no hook calls check(), every member
    function other than check() returns with _bReset still false
    and without an invocation of process() added to the log,
    whatever calls are made from inside the operation's hooks; and
    tryToReceive on a disarmed processor returns true and changes
    nothing. In particular this is the state interrupt() leaves. *)
Theorem disarmed_processor_stays_idle :
  never_checks E ->
  (forall fuel c op,
     is_check c = false -> _bReset op = false ->
     post (PiiSimpleProcessor.perform fuel c op) (still_disarmed op)) /\
  (forall perform n sender object op,
     _bReset op = false ->
     tryToReceive perform n sender object op = Returned (true, op)) /\
  (forall op, _bReset (interrupt op) = false).
Proof.
  intros Hnc. split; [|split].
  - induction fuel as [|fuel IH]; intros c op Hc Hoff;
      cbn [PiiSimpleProcessor.perform]; [exact I|].
    now apply perform_call_disarmed.
  - intros perform n sender object op Hoff. unfold tryToReceive.
    now rewrite SimpleAdmission.admission_unarmed.
  - reflexivity.
Qed.

End Flags.

Lemma tryToReceive_restores_the_flag_witness :
  post (tryToReceive (PiiSimpleProcessor.perform 3) 3 0 A running)
       (fun r => _bProcessing r.2 = _bProcessing running).
Proof. exact (tryToReceive_restores_the_flag (PiiSimpleProcessor.perform 3) 3 0 A running). Defined.

Lemma disarmed_processor_stays_idle_witness :
  never_checks plain /\
  _bReset (interrupt running) = false /\
  tryToReceive (PiiSimpleProcessor.perform 3) 3 0 A (interrupt running)
  = Returned (true, interrupt running) /\
  post (PiiSimpleProcessor.perform 3 CallStart (interrupt running))
       (still_disarmed (interrupt running)).
Proof.
  destruct (disarmed_processor_stays_idle (E := plain) plain_never_checks)
    as (Hcalls & Htry & _).
  exact (conj plain_never_checks
          (conj eq_refl
             (conj (Htry (PiiSimpleProcessor.perform 3) 3%nat 0%nat A
                         (interrupt running) eq_refl)
                   (Hcalls 3%nat CallStart (interrupt running) eq_refl eq_refl)))).
Defined.

End SimpleFlags.

(** ** The synchronous processor: the flow controller's first answer *)

Module SimpleFirstAnswer.
Import PiiFlowController Ydin PiiOperation PiiSimpleProcessor Runs RunsMore Scenario.
Import SimpleRuns.

Section FirstAnswer.
Context {E : Env}.
Implicit Types op : t E.

Lemma wake_up_not_stopped op : state (wake_up op) <> Stopped.
Proof.
  unfold wake_up. destruct (bool_decide (state op = Stopped)) eqn:Hst; cbn.
  - discriminate.
  - apply bool_decide_eq_false_1 in Hst.
    now destruct (bool_decide (state op = Paused)).
Qed.

(** X13: an armed processor with no dispatch under way accepts an
    object and queries the flow controller. If the answer is
    Incomplete, the call returns true and has invoked no hook. If
    the flow controller throws an execution exception, the call
    still returns true and has invoked no hook; with code Paused the
    operation ends Paused and the processor stays armed, with any
    other code the operation ends Stopped and the processor is
    disarmed, and errorOccured is emitted exactly for the code
    Error. In both cases the _bProcessing flag is clear at the
    end. *)
Theorem first_answer_incomplete_or_exception
    (perform : Call -> t E -> Result (t E)) (n sender : nat) (object : Obj) op
    (pInput : PiiInputSocket) (fc fc' : FC E) (ins' : list PiiInputSocket)
    (answer : Prepared) :
  _bReset op = true -> _bProcessing op = false ->
  inputs op !! sender = Some pInput -> canReceive pInput = true ->
  _pFlowController op = Some fc ->
  let accepted :=
    with_inputs (<[sender := receive object pInput]> (inputs op)) (wake_up op) in
  let queried :=
    log (Ev EPrepare) (with_inputs ins' (with_flowController fc' accepted)) in
  prepareProcess E fc (inputs accepted) = (answer, fc', ins') ->
  (answer = Verdict IncompleteState ->
   tryToReceive perform (S n) sender object op = Returned (true, queried) /\
   state queried = state (wake_up op) /\ _bReset queried = true /\
   _bProcessing queried = false) /\
  (forall code,
     answer = Throws code ->
     exists final,
       tryToReceive perform (S n) sender object op = Returned (true, final) /\
       _bProcessing final = false /\
       state final
       = (if bool_decide (code = PiiExecutionException.Paused) then Paused
          else Stopped) /\
       _bReset final = bool_decide (code = PiiExecutionException.Paused) /\
       trace final
       = trace queried
         ++ (if bool_decide (code = PiiExecutionException.Error)
             then [Ev EErrorOccured] else [])
         ++ [SetBy MTryToReceive (state final)]) /\
  processed (trace queried) = processed (trace (wake_up op)).
Proof.
  intros Hon Hflag Hin Hfree Hfc accepted queried Hanswer.
  destruct (wake_up_quiet op) as (_ & Hwp & Hwf).
  assert (_pFlowController accepted = Some fc) as Hfc'
    by (subst accepted; cbn; congruence).
  assert (_bProcessing accepted = false) as Hflag'
    by (subst accepted; cbn; congruence).
  assert (_bReset queried = true) as Hq.
  { subst queried accepted. cbn.
    destruct (SimpleAdmission.wake_up_fields op) as (_ & -> & _). exact Hon. }
  assert (state queried <> Stopped) as Hns
    by (subst queried accepted; cbn; apply wake_up_not_stopped).
  assert (tryToReceive perform (S n) sender object op
          = '(ex, op') ← dispatch_loop perform (S n) accepted;
            match ex with
            | None => mret (true, op')
            | Some code => mret (true, catch_execution code op')
            end) as Hshape.
  { unfold tryToReceive.
    rewrite (SimpleAdmission.admission_accepts _ _ _ pInput) by assumption.
    fold accepted. change (Returned (Accepted accepted) ≫= ?k) with (k (Accepted accepted)).
    cbv beta iota. now rewrite Hflag'. }
  assert (dispatch_loop perform (S n) accepted
          = match answer with
            | Throws code => mret (Some code, queried)
            | Verdict IncompleteState => mret (None, queried)
            | Verdict verdict =>
              '(ex, op2) ← invoke_all perform (sendSyncEvents :: dispatch verdict)
                               (with_bProcessing true queried);
              match ex with
              | Some code => mret (Some code, op2)
              | None =>
                if _bReset (with_bProcessing false op2)
                then dispatch_loop perform n (with_bProcessing false op2)
                else mret (None, with_bProcessing false op2)
              end
            end) as Hloop.
  { cbn [dispatch_loop]. rewrite Hfc', Hanswer. reflexivity. }
  rewrite Hshape, Hloop.
  split; [|split].
  - intros ->. split; [reflexivity|].
    split; [reflexivity|]. split; [exact Hq|].
    subst queried accepted. cbn. congruence.
  - intros code ->.
    exists (catch_execution code queried). split; [reflexivity|].
    unfold catch_execution. cbn [state with_bProcessing].
    rewrite (bool_decide_eq_false_2 _ Hns). cbn [negb]. rewrite andb_true_r.
    destruct code;
      repeat ((rewrite bool_decide_eq_true_2 by reflexivity)
              || (rewrite bool_decide_eq_false_2 by discriminate));
      cbn; rewrite ?app_nil_r, <- ?app_assoc; repeat split;
      destruct (SimpleAdmission.wake_up_fields op) as (_ & -> & _); exact Hon.
  - subst queried accepted. cbn. rewrite SimpleFlags.processed_app. cbn.
    now rewrite app_nil_r.
Qed.

End FirstAnswer.
End SimpleFirstAnswer.

Module SimpleFirstAnswerExamples.
Import PiiFlowController Ydin PiiOperation PiiSimpleProcessor Runs RunsMore.
Import Scenario ScenarioMore.

Lemma first_answer_incomplete_or_exception_witness :
  exists final,
    tryToReceive (PiiSimpleProcessor.perform 1) 1 0 A
      (running_throwing PiiExecutionException.Error)
    = Returned (true, final) /\
    state final = Stopped /\ _bReset final = false /\
    trace final = [Ev EPrepare; Ev EErrorOccured; SetBy MTryToReceive Stopped].
Proof.
  destruct (SimpleFirstAnswer.first_answer_incomplete_or_exception
              (E := throwing PiiExecutionException.Error)
              (PiiSimpleProcessor.perform 1) 0 0 A
              (running_throwing PiiExecutionException.Error)
              (empty_socket 4) tt tt [receive A (empty_socket 4)]
              (Throws PiiExecutionException.Error)
              eq_refl eq_refl eq_refl eq_refl eq_refl eq_refl)
    as (_ & Hthrow & _).
  destruct (Hthrow PiiExecutionException.Error eq_refl)
    as (final & Hrun & _ & Hstate & Hreset & Htrace).
  exists final. split; [exact Hrun|].
  split; [exact Hstate|]. split; [exact Hreset|].
  rewrite Htrace, Hstate. reflexivity.
Defined.

End SimpleFirstAnswerExamples.

(** ** The threaded processor *)

Module ThreadedFacts.
Import PiiFlowController Ydin PiiOperation Runs RunsMore Scenario ScenarioMore.
Import PiiThreadedProcessor.
Import SimpleRuns.

Section Threaded.
Context {E : Env}.
Implicit Types tp : t E.

(** X14: a member function called on the threaded processor from
    another thread never runs a hook on the caller's thread: it
    adds nothing but state changes to the log, leaves the flow
    controller alone, and leaves the processor's thread where it
    is, except that start() on a Stopped operation without a
    running thread starts one. *)
Theorem threaded_calls_run_no_hook (c : Call) tp tp' :
  perform c tp = Returned tp' ->
  (exists tr, trace tp' = trace tp ++ tr /\
              forallb is_state_change tr = true /\ entered tr = []) /\
  _pFlowController tp' = _pFlowController tp /\
  (position tp' = position tp \/
   (c = CallStart /\ state tp = Stopped /\ position tp' = AtRunEntry /\
    (position tp = NotStarted \/ position tp = Terminated))).
Proof.
  assert (forall tp0, trace tp0 = trace tp ->
            exists tr, trace tp0 = trace tp ++ tr /\
              forallb is_state_change tr = true /\ entered tr = []) as Hnil
    by (intros tp0 ->; exists []; now rewrite app_nil_r).
  assert (forall s tp0, trace tp0 = trace tp ++ [ESetState s] ->
            exists tr, trace tp0 = trace tp ++ tr /\
              forallb is_state_change tr = true /\ entered tr = []) as Hset
    by (intros s tp0 ->; now exists [ESetState s]).
  destruct c; cbn [perform].
  - unfold tryToReceive. destruct (inputs tp !! sender) as [pInput|]; [|discriminate].
    destruct (canReceive pInput); intros [= <-];
      (split; [now apply Hnil | split; [reflexivity | now left]]).
  - intros [= <-]. unfold check.
    destruct reset; (split; [now apply Hnil | split; [reflexivity | now left]]).
  - intros [= <-]. split; [now apply Hnil | split; [reflexivity | now left]].
  - intros [= <-]. unfold start.
    destruct (bool_decide (state tp = Stopped)) eqn:Hst.
    + apply bool_decide_eq_true_1 in Hst.
      cbn [position setState log].
      destruct (bool_decide (position tp = NotStarted)) eqn:Hp1;
        [apply bool_decide_eq_true_1 in Hp1|
         destruct (bool_decide (position tp = Terminated)) eqn:Hp2;
         [apply bool_decide_eq_true_1 in Hp2|]];
        cbn [orb];
        (split; [now apply (Hset Starting) | split; [reflexivity|]]);
        [right | right | left]; auto.
    + destruct (bool_decide (state tp = Paused));
        (split; [now apply Hnil | split; [reflexivity | now left]]).
  - intros [= <-]. unfold interrupt.
    destruct (bool_decide (state tp = Stopped));
      (split; [(now apply Hnil) || (now apply (Hset Interrupted))
              | split; [reflexivity | now left]]).
  - intros [= <-]. unfold pause.
    destruct (bool_decide (state tp = Running));
      (split; [(now apply Hnil) || (now apply (Hset Pausing))
              | split; [reflexivity | now left]]).
  - intros [= <-]. unfold stop.
    destruct (bool_decide (state tp = Running));
      (split; [(now apply Hnil) || (now apply (Hset Stopping))
              | split; [reflexivity | now left]]).
Qed.

(** X15: an object that the socket can receive is queued and the
    condition is signalled, so a thread waiting for input takes its
    next step; an object that the socket cannot receive is refused
    and nothing changes, not even the condition. *)
Theorem threaded_tryToReceive_wakes_the_thread
    (sender : nat) (object : Obj) tp (pInput : PiiInputSocket) :
  inputs tp !! sender = Some pInput ->
  (canReceive pInput = true ->
   exists tp',
     tryToReceive sender object tp = Returned (true, tp') /\
     inputs tp' !! sender = Some (receive object pInput) /\
     _inputCondition tp' = true /\
     state tp' = state tp /\ trace tp' = trace tp /\
     (position tp = AtInputWait ->
      forall n, exists tp'',
        thread_step n tp' = Returned (Next tp'') /\
        position tp'' = AfterInputWait /\ inputs tp'' = inputs tp')) /\
  (canReceive pInput = false ->
   tryToReceive sender object tp = Returned (false, tp)).
Proof.
  intros Hin. unfold tryToReceive. rewrite Hin. split; intros Hcan; rewrite Hcan.
  - eexists. split; [reflexivity|]. cbn.
    split; [apply list_lookup_insert_eq; now apply lookup_lt_Some with pInput|].
    repeat split.
    intros Hpos n. unfold thread_step. cbn. rewrite Hpos.
    eexists. split; [reflexivity|]. now split.
  - reflexivity.
Qed.

(** X16: start() on a Stopped operation without a running thread
    sets Starting and starts the thread, whose first step confirms
    Running. If interrupt() comes before that step, the thread
    never sets Running and never invokes a hook: it returns from
    run() and the operation ends Stopped. On an operation that is
    neither Stopped nor Paused, start() does nothing. *)
Theorem threaded_start_handshake (n : nat) tp :
  state tp = Stopped ->
  position tp = NotStarted \/ position tp = Terminated ->
  thread_step n tp = Returned Halted /\
  state (start tp) = Starting /\
  (exists tp1,
     thread_step n (start tp) = Returned (Next tp1) /\
     state tp1 = Running /\ position tp1 = AtLoopTest /\
     trace tp1 = trace tp ++ [ESetState Starting; ESetState Running]) /\
  (exists final,
     thread_run 4 n (interrupt (start tp)) = Returned final /\
     state final = Stopped /\ position final = Terminated /\
     trace final
     = trace tp ++ [ESetState Starting; ESetState Interrupted; ESetState Stopped]) /\
  (forall tp0 : t E, state tp0 <> Stopped -> state tp0 <> Paused -> start tp0 = tp0).
Proof.
  intros Hst Hpos.
  assert (start tp = goto AtRunEntry (setState Starting tp)) as Hstart.
  { unfold start. rewrite Hst. cbn.
    destruct Hpos as [-> | ->]; reflexivity. }
  split; [unfold thread_step; now destruct Hpos as [-> | ->]|].
  rewrite Hstart. split; [reflexivity|].
  split; [|split].
  - eexists. split; [reflexivity|].
    repeat split. lazy -[app]. now rewrite <- app_assoc.
  - eexists. split; [reflexivity|].
    repeat split. lazy -[app]. now rewrite <- !app_assoc.
  - intros tp0 H1 H2. unfold start.
    now rewrite !bool_decide_eq_false_2.
Qed.

(** X17: a thread suspended at the wait of the catch clause, in a
    Paused operation with connected inputs and no signal pending,
    is blocked. start() wakes it; it then sets Running, signals the
    condition itself, and so passes the wait for input at once and
    goes on to look at the input queues, without any hook having
    been invoked on the way. *)
Theorem threaded_resume_drains_the_inputs (n : nat) tp (fc : FC E) :
  position tp = AtPausedWait -> state tp = Paused ->
  _inputCondition tp = false -> _pFlowController tp = Some fc ->
  thread_step n tp = Returned Blocked /\
  exists tp1 tp2 tp3 tp4,
    thread_step n (start tp) = Returned (Next tp1) /\
    thread_step n tp1 = Returned (Next tp2) /\
    state tp2 = Running /\ position tp2 = AtLoopTest /\
    _inputCondition tp2 = true /\
    thread_step n tp2 = Returned (Next tp3) /\
    position tp3 = AtInputWait /\
    thread_step n tp3 = Returned (Next tp4) /\
    position tp4 = AfterInputWait /\ state tp4 = Running /\
    inputs tp4 = inputs tp /\
    trace tp4 = trace tp ++ [ESetState Running].
Proof.
  intros Hpos Hst Hsig Hfc.
  split; [unfold thread_step; now rewrite Hpos, Hsig|].
  destruct tp as [st rc name sig fc0 ins pos tr]. cbn in *. subst.
  do 4 eexists. repeat split.
Qed.

(** X18: the thread has been woken at the wait for input of a
    Running operation and queries the flow controller. If the
    answer is Incomplete, no hook is invoked, the pending signal
    has been cleared, and the thread goes back to the wait and
    blocks. If the flow controller throws, no hook is invoked
    either: with code Paused the operation becomes Paused and the
    thread suspends itself; with any other code the operation
    becomes Stopping, errorOccured is emitted exactly for Error,
    run() returns and the operation ends Stopped. *)
Theorem threaded_first_answer
    (n : nat) tp (fc fc' : FC E) (ins' : list PiiInputSocket) (answer : Prepared) :
  position tp = AfterInputWait -> state tp = Running ->
  _pFlowController tp = Some fc ->
  prepareProcess E fc (inputs tp) = (answer, fc', ins') ->
  (answer = Verdict IncompleteState ->
   exists tp1 tp2,
     thread_step (S n) tp = Returned (Next tp1) /\
     position tp1 = AtLoopTest /\ state tp1 = Running /\
     trace tp1 = trace tp ++ [EPrepare] /\ inputs tp1 = ins' /\
     thread_step (S n) tp1 = Returned (Next tp2) /\
     position tp2 = AtInputWait /\
     thread_step (S n) tp2 = Returned Blocked) /\
  (answer = Throws PiiExecutionException.Paused ->
   exists tp1,
     thread_step (S n) tp = Returned (Next tp1) /\
     position tp1 = AtPausedWait /\ state tp1 = Paused /\
     trace tp1 = trace tp ++ [EPrepare; ESetState Paused] /\
     thread_step (S n) tp1 = Returned Blocked) /\
  (forall code,
     answer = Throws code -> code <> PiiExecutionException.Paused ->
     exists tp1 final,
       thread_step (S n) tp = Returned (Next tp1) /\
       position tp1 = RunReturned /\ state tp1 = Stopping /\
       thread_run 2 (S n) tp1 = Returned final /\
       position final = Terminated /\ state final = Stopped /\
       trace final
       = trace tp ++ [EPrepare; ESetState Stopping]
         ++ (if bool_decide (code = PiiExecutionException.Error)
             then [EErrorOccured] else [])
         ++ [ESetState Stopped]).
Proof.
  intros Hpos Hst Hfc Hanswer.
  destruct tp as [st rc name sig fc0 ins pos tr]. cbn in Hpos, Hst, Hfc, Hanswer.
  subst pos st fc0.
  split; [|split].
  - intros ->. do 2 eexists.
    split; [unfold thread_step; cbn; rewrite Hanswer; reflexivity|].
    cbn. repeat split.
  - intros ->. eexists.
    split; [unfold thread_step; cbn; rewrite Hanswer; reflexivity|].
    repeat split; lazy -[app]; rewrite <- ?app_assoc; reflexivity.
  - intros code -> Hcode. do 2 eexists.
    split; [unfold thread_step; cbn; rewrite Hanswer; reflexivity|].
    destruct code; [| |contradiction];
      repeat split; lazy -[app]; rewrite <- ?app_assoc; reflexivity.
Qed.

End Threaded.

Lemma threaded_calls_run_no_hook_witness :
  perform CallInterrupt (waiting_thread plain tt)
  = Returned (interrupt (waiting_thread plain tt)) /\
  position (interrupt (waiting_thread plain tt)) = AtInputWait.
Proof.
  destruct (threaded_calls_run_no_hook CallInterrupt (waiting_thread plain tt)
              (interrupt (waiting_thread plain tt)) eq_refl)
    as (_ & _ & [Hpos | (Hc & _)]).
  - exact (conj eq_refl Hpos).
  - discriminate Hc.
Defined.

Lemma threaded_tryToReceive_wakes_the_thread_witness :
  inputs (waiting_thread plain tt) !! 0%nat = Some (empty_socket 1) /\
  canReceive (empty_socket 1) = true /\
  exists tp',
    tryToReceive 0 A (waiting_thread plain tt) = Returned (true, tp') /\
    _inputCondition tp' = true.
Proof.
  destruct (threaded_tryToReceive_wakes_the_thread 0 A (waiting_thread plain tt)
              (empty_socket 1) eq_refl) as (Hacc & _).
  destruct (Hacc eq_refl) as (tp' & Hrun & _ & Hsig & _).
  exact (conj eq_refl (conj eq_refl (ex_intro _ tp' (conj Hrun Hsig)))).
Defined.

Lemma threaded_start_handshake_witness :
  state idle_threaded = Stopped /\
  position idle_threaded = NotStarted /\
  state (start idle_threaded) = Starting.
Proof.
  destruct (threaded_start_handshake 1 idle_threaded eq_refl (or_introl eq_refl))
    as (_ & Hstarting & _).
  exact (conj eq_refl (conj eq_refl Hstarting)).
Defined.

Lemma threaded_resume_drains_the_inputs_witness :
  position paused_thread = AtPausedWait /\ state paused_thread = Paused /\
  thread_step 1 paused_thread = Returned Blocked.
Proof.
  destruct (threaded_resume_drains_the_inputs 1 paused_thread tt
              eq_refl eq_refl eq_refl eq_refl) as (Hblocked & _).
  exact (conj eq_refl (conj eq_refl Hblocked)).
Defined.

Lemma threaded_first_answer_witness :
  exists tp1 final,
    thread_step 1 (woken_throwing PiiExecutionException.Error) = Returned (Next tp1) /\
    state tp1 = Stopping /\
    thread_run 2 1 tp1 = Returned final /\ state final = Stopped.
Proof.
  destruct (threaded_first_answer (E := throwing PiiExecutionException.Error)
              0 (woken_throwing PiiExecutionException.Error) tt tt
              [empty_socket 4] (Throws PiiExecutionException.Error)
              eq_refl eq_refl eq_refl eq_refl) as (_ & _ & Hthrow).
  assert (PiiExecutionException.Error <> PiiExecutionException.Paused) as Hne
    by discriminate.
  destruct (Hthrow PiiExecutionException.Error eq_refl Hne)
    as (tp1 & final & Hstep & _ & Hst1 & Hrun & _ & Hst & _).
  exact (ex_intro _ tp1 (ex_intro _ final (conj Hstep (conj Hst1 (conj Hrun Hst))))).
Defined.

End ThreadedFacts.

(** ** The threaded processor: an operation without connected inputs *)

Module ThreadedProducer.
Import PiiFlowController Ydin PiiOperation Runs RunsMore Scenario ScenarioMore.
Import PiiThreadedProcessor.
Import SimpleRuns.

Section Producer.
Context {E : Env}.
Implicit Types tp : t E.

Lemma entered_app t1 t2 : entered (t1 ++ t2) = entered t1 ++ entered t2.
Proof.
  induction t1 as [|e t1 IH]; [reflexivity|].
  destruct e; cbn; now rewrite ?IH.
Qed.

Lemma enters_refl tp tp' : trace tp' = trace tp -> enters [] tp tp'.
Proof. intros Heq. exists []. now rewrite app_nil_r. Qed.

Lemma enters_trans hs1 hs2 tp1 tp2 tp3 :
  enters hs1 tp1 tp2 -> enters hs2 tp2 tp3 -> enters (hs1 ++ hs2) tp1 tp3.
Proof.
  intros (t1 & H1 & E1) (t2 & H2 & E2). exists (t1 ++ t2).
  split; [now rewrite H2, H1, app_assoc | now rewrite entered_app, E1, E2].
Qed.

Lemma enters_state_change s tp tp' :
  trace tp' = trace tp ++ [ESetState s] -> enters [] tp tp'.
Proof. intros Heq. now exists [ESetState s]. Qed.

Lemma perform_enters_nothing (c : Call) tp :
  post (perform c tp) (enters [] tp).
Proof.
  destruct c; cbn [perform].
  - unfold tryToReceive. destruct (inputs tp !! sender) as [pInput|]; [|exact I].
    destruct (canReceive pInput); now apply enters_refl.
  - unfold check. destruct reset; now apply enters_refl.
  - now apply enters_refl.
  - unfold start. destruct (bool_decide (state tp = Stopped)).
    + destruct (_ || _); now apply enters_state_change with Starting.
    + destruct (bool_decide (state tp = Paused)); now apply enters_refl.
  - unfold interrupt. destruct (bool_decide (state tp = Stopped));
      [now apply enters_refl | now apply enters_state_change with Interrupted].
  - unfold pause. destruct (bool_decide (state tp = Running));
      [now apply enters_state_change with Pausing | now apply enters_refl].
  - unfold stop. destruct (bool_decide (state tp = Running));
      [now apply enters_state_change with Stopping | now apply enters_refl].
Qed.

Lemma run_calls_enters_nothing cs :
  forall tp, post (run_calls cs tp) (enters [] tp).
Proof.
  induction cs as [|c cs IH]; intros tp; cbn [run_calls].
  - now apply post_ret, enters_refl.
  - eapply post_bind; [apply perform_enters_nothing|]. intros tp1 H1.
    eapply post_weaken; [apply IH|]. intros tp2 H2.
    apply (enters_trans [] [] _ _ _ H1 H2).
Qed.

Lemma invoke_enters h tp :
  post (invoke h tp) (fun r => enters [h] tp r.2).
Proof.
  unfold invoke. cbv zeta.
  eapply post_bind; [apply run_calls_enters_nothing|].
  intros tp1 (tr & Htr & Hq). apply post_ret. cbn [snd].
  exists (EEnter h (map firstObject (inputs tp)) :: tr ++ [ELeave h]). split.
  - cbn. rewrite Htr. cbn. now rewrite <- !app_assoc.
  - cbn. now rewrite entered_app, Hq.
Qed.

Lemma enters_one_more h rest tp tp1 tp2 :
  h <> processLocked ->
  enters (processLocked :: rest) tp tp1 -> processLocked ∉ rest ->
  enters [h] tp1 tp2 ->
  exists rest', enters (processLocked :: rest') tp tp2 /\ processLocked ∉ rest'.
Proof.
  intros Hh H1 Hrest H2. exists (rest ++ [h]). split.
  - apply (enters_trans (processLocked :: rest) [h] _ _ _ H1 H2).
  - intros [Hin | Hin]%elem_of_app; [now apply Hrest|].
    apply list_elem_of_singleton in Hin. now symmetry in Hin.
Qed.

Lemma produce_enters tp :
  post (produce tp)
       (fun r => exists rest,
                   enters (processLocked :: rest) tp r.2 /\ processLocked ∉ rest).
Proof.
  unfold produce.
  eapply post_bind; [apply invoke_enters|].
  intros [[code|] tp1] H1; cbn [snd] in H1.
  { apply post_ret. exists []. split; [exact H1 | apply not_elem_of_nil]. }
  assert (exists rest, enters (processLocked :: rest) tp tp1 /\ processLocked ∉ rest)
    as Hstart by (exists []; split; [exact H1 | apply not_elem_of_nil]).
  assert (forall h tp2,
            h <> processLocked ->
            (exists rest, enters (processLocked :: rest) tp tp2 /\
                          processLocked ∉ rest) ->
            post (invoke h tp2)
                 (fun r => exists rest,
                    enters (processLocked :: rest) tp r.2 /\
                    processLocked ∉ rest)) as Hnext.
  { intros h tp2 Hh (rest & Hrest & Hnot).
    eapply post_weaken; [apply invoke_enters|].
    intros r Hr. now apply (enters_one_more h rest tp tp2). }
  eapply post_bind with
    (Q := fun r => exists rest,
            enters (processLocked :: rest) tp r.2 /\ processLocked ∉ rest).
  - destruct (_bMustReconfigure tp1); [|now apply post_ret].
    eapply post_bind; [apply Hnext; [discriminate | exact Hstart]|].
    intros [[code|] tp2] H2; cbn [snd] in H2; apply post_ret; [exact H2|].
    destruct H2 as (rest & (tr & Htr & Hen) & Hnot).
    exists rest. split; [now exists tr | exact Hnot].
  - intros [[code|] tp2] H2; cbn [snd] in H2; [now apply post_ret|].
    destruct (bool_decide (state tp2 = Pausing));
      [apply Hnext; [discriminate | exact H2]|].
    destruct (bool_decide (state tp2 = Stopping));
      [apply Hnext; [discriminate | exact H2]|].
    now apply post_ret.
Qed.

Lemma after_try_enters_nothing ex tp :
  enters [] tp (after_try (ex, tp)) /\
  (position (after_try (ex, tp)) = AtLoopTest \/
   position (after_try (ex, tp)) = AtPausedWait \/
   position (after_try (ex, tp)) = RunReturned).
Proof.
  destruct ex as [code|]; cbn [after_try].
  - unfold catch_execution. destruct (_ && _).
    + split; [now apply enters_state_change with Paused | auto].
    + destruct (bool_decide (code = PiiExecutionException.Error)).
      * split; [|auto]. now exists [ESetState Stopping; EErrorOccured];
          cbn; rewrite <- app_assoc.
      * split; [now apply enters_state_change with Stopping | auto].
  - split; [now apply enters_refl | auto].
Qed.

(** X19: in an operation without connected inputs, every turn of
    the thread's loop invokes process() exactly once and before any
    other hook, whatever the hooks do and whatever calls they make
    back on the processor; the turn ends at the loop test, at the
    wait of a paused thread, or with run() returning. *)
Theorem producer_turn_processes_once (n : nat) tp :
  position tp = AtLoopTest -> state tp <> Interrupted ->
  _pFlowController tp = None ->
  post (thread_step n tp)
       (fun s => exists tp' rest,
          s = Next tp' /\
          enters (processLocked :: rest) tp tp' /\ (processLocked ∉ rest) /\
          (position tp' = AtLoopTest \/ position tp' = AtPausedWait \/
           position tp' = RunReturned)).
Proof.
  intros Hpos Hst Hfc. unfold thread_step.
  rewrite Hpos, (bool_decide_eq_false_2 _ Hst), Hfc.
  eapply post_bind; [apply produce_enters|].
  intros [ex tp1] (rest & H1 & Hnot). apply post_ret. cbn [snd] in H1.
  destruct (after_try_enters_nothing ex tp1) as (H2 & Hwhere).
  exists (after_try (ex, tp1)), rest. split; [reflexivity|].
  split; [|split; [exact Hnot | exact Hwhere]].
  pose proof (enters_trans (processLocked :: rest) [] _ _ _ H1 H2) as H3.
  now rewrite app_nil_r in H3.
Qed.

End Producer.

Lemma producer_turn_processes_once_witness :
  post (thread_step 1 ScenarioMore.producer)
       (fun s => exists tp' rest,
          s = Next tp' /\
          enters (processLocked :: rest) ScenarioMore.producer tp' /\
          (processLocked ∉ rest) /\
          (position tp' = AtLoopTest \/ position tp' = AtPausedWait \/
           position tp' = RunReturned)).
Proof.
  assert (state ScenarioMore.producer <> Interrupted) as Hst by discriminate.
  exact (producer_turn_processes_once 1 ScenarioMore.producer eq_refl Hst eq_refl).
Defined.

End ThreadedProducer.
